(** * SHPImporter: a shallow embedding of [src/SHPImporter.ts]

    The importer walks a workspace tree, groups shapefile parts by base
    name, hands every group to the [shpjs] parser and turns the parsed
    features into layers and primitives of the host drawing.

    Modelling conventions.
    - A JS [number] is a binary64 float ([PrimFloat.float]).
    - A JS string is a [string]; one character is one code unit.
    - A JS object used as a record keyed by a computed name is either a
      [gmap] (a [ShapeGroup], written through [group[extension]]) or the
      list of its own properties in the order [for ... in] visits them
      (the [groups] record and the typed objects): the array indices in
      ascending order, then the other names in the order they were
      added.
    - [groups[name]] looks past the own properties of [groups] into
      [Object.prototype]: its standard names and the names it has gained,
      which the state carries, since [addToGroups] itself can add to them
      (a title [__proto__.shp] writes [Object.prototype.shp]).
      [loadShapes] is given the own names of [groups]; the names
      [Object.prototype] has gained, which [for ... in] visits after
      them, are left out, and the statement that reads the names visited
      off a run of [import] assumes that there are none.
    - Every [await]ed call on the outside world is an [Op]; the run of a
      program is the list of [Event]s it issues, in order, together with
      the way each call came back.  Host calls fail according to a fault
      schedule carried by the state, a fetch or a listing fails when the
      item says so, the parser fails when [shp] returns [None].  The
      synchronous calls on the context (progress, output channel, [tr])
      and the lookups [types.itemById] and [layout.editor] do not fail. *)

From Stdlib Require Import String Ascii List ZArith Lia Permutation.
From Stdlib Require Import PrimFloat FloatOps SpecFloat.
From stdpp Require Import gmap strings list fin_maps.

Set Default Proof Using "Type".

(** ** Workspace items and shapefile groups *)

Definition Buffer := list Byte.byte.

Abbreviation ShapeGroup := (gmap string Buffer).
Abbreviation Groups := (list (string * ShapeGroup)).

(** [get] and [propfind] hold what the item's accessor answers; [None] is
    a rejected promise (an I/O failure). *)
Unset Elimination Schemes.
Inductive WorkspaceItem :=
  Item (mimeType title : string)
       (get : option Buffer) (propfind : option (list WorkspaceItem)).

Set Elimination Schemes.

Definition mimeType (i : WorkspaceItem) := let (m, _, _, _) := i in m.
Definition title (i : WorkspaceItem) := let (_, t, _, _) := i in t.
Definition get (i : WorkspaceItem) := let (_, _, g, _) := i in g.
Definition propfind (i : WorkspaceItem) := let (_, _, _, p) := i in p.

Record Workspace := { origin : option string; root : WorkspaceItem }.

Definition ALLOWED_EXTENSIONS : list string :=
  ["shp"; "dbf"; "prj"; "cpg"; "idx"; "shx"].

(** [Array.prototype.includes] on strings. *)
Definition includes (l : list string) (s : string) : bool :=
  existsb (String.eqb s) l.
Arguments includes : simpl never.

(** The value of a decimal digit. *)
Definition digit (c : ascii) : option N :=
  let n := N_of_ascii c in
  if (48 <=? n)%N && (n <=? 57)%N then Some (n - 48)%N else None.

Fixpoint decimal (s : string) (acc : N) : option N :=
  match s with
  | EmptyString => Some acc
  | String c rest =>
      match digit c with
      | Some d => decimal rest (10 * acc + d)%N
      | None => None
      end
  end.

(** A property name is an array index when it is the canonical decimal
    form of an integer below [2^32 - 1]. *)
Definition array_index (name : string) : option N :=
  match name with
  | EmptyString => None
  | String c rest =>
      if Ascii.eqb c "0" && negb (String.eqb rest "") then None
      else match decimal name 0 with
           | Some n => if (n <? 4294967295)%N then Some n else None
           | None => None
           end
  end.

(** [o[name]] and [o[name] = v] on an object kept as its own properties
    in the order of enumeration: a known key keeps its place, a new array
    index goes before the first of the larger indices and of the other
    names, any other new key goes last. *)
Section Objects.
Context {V : Type}.

Fixpoint obj_get (o : list (string * V)) (name : string) : option V :=
  match o with
  | [] => None
  | (k, v) :: rest => if String.eqb k name then Some v else obj_get rest name
  end.

Fixpoint obj_replace (o : list (string * V)) (name : string) (v : V)
  : list (string * V) :=
  match o with
  | [] => []
  | (k, v0) :: rest =>
      if String.eqb k name then (k, v) :: rest
      else (k, v0) :: obj_replace rest name v
  end.

Fixpoint obj_insert_index (o : list (string * V)) (n : N) (name : string) (v : V)
  : list (string * V) :=
  match o with
  | [] => [(name, v)]
  | (k, v0) :: rest =>
      match array_index k with
      | Some m =>
          if (n <? m)%N then (name, v) :: (k, v0) :: rest
          else (k, v0) :: obj_insert_index rest n name v
      | None => (name, v) :: (k, v0) :: rest
      end
  end.

Definition obj_set (o : list (string * V)) (name : string) (v : V)
  : list (string * V) :=
  match obj_get o name with
  | Some _ => obj_replace o name v
  | None =>
      match array_index name with
      | Some n => obj_insert_index o n name v
      | None => o ++ [(name, v)]
      end
  end.
End Objects.

(** ** Parsed data *)

Definition vec := list float.

Inductive Geometry :=
| Point (coordinates : vec)
| LineString (coordinates : list vec)
| Polygon (coordinates : list (list vec))
| MultiPoint (coordinates : list vec)
| MultiLineString (coordinates : list (list vec))
| MultiPolygon (coordinates : list (list (list vec)))
| OtherGeometry (type : string).

(** A [Date] is seen only through [toLocaleString]; whatever else the
    parser may hand over is seen only through its string conversion. *)
Record Date := { time : float; toLocaleString : string }.

Inductive PropertyValue :=
| PNumber (n : float)
| PString (s : string)
| PBoolean (b : bool)
| PDate (d : Date)
| POther (repr : string).

Record Feature := {
  feature_type : string;
  geometry : Geometry;
  properties : list (string * PropertyValue)
}.

Record GeoJSON := { geojson_type : string; features : list Feature }.

(** ** Host objects *)

Inductive Handle := HLayer (id : nat) | HEntity (id : nat).

(** [DwgTypedObject]: the object literals of the source, field by field. *)
Unset Elimination Schemes.
Inductive DwgValue :=
| DUndefined
| DNum (n : float)
| DStr (s : string)
| DBool (b : bool)
| DRaw (repr : string)
| DTypeRef (id : string)
| DObj (fields : list (string * DwgValue)).
Set Elimination Schemes.

Abbreviation Fields := (list (string * DwgValue)).

Inductive Layout := ModelLayout.
Record Layouts := { model : option Layout }.
Record Drawing := { layouts : option Layouts }.

(** ** Calls, events, errors *)

Inductive Op :=
| item_get (title : string)
| item_propfind (title : string)
| shp_parse (group : ShapeGroup)
| layers_add (data : Fields)
| addCircle (center : vec) (radius : float)
| addLine (a b : vec)
| addPolyline3d (vertices : list vec) (flags : option nat)
| setx (target : Handle) (key : string) (value : Handle)
| beginEdit
| endEdit.

Inductive Result := Gave (h : nat) | Done | Threw.

Inductive Error := Failure (op : Op).

Inductive Event :=
| Await (op : Op) (res : Result)
| SetDisabled (layer : nat) (b : bool)
| ConsoleError (msg : string)
| BeginProgress
| CreateOutputChannel (name : string)
| OutputsInfo (msg : string)
| ProgressIndeterminate (b : bool)
| ProgressDetails (msg : string)
| OutputsError (e : Error)
| EndProgress.

(** ** The monad of the importer: state, events and exceptions *)

Record State := {
  trace : list Event;   (* what has happened so far, oldest first *)
  faults : list bool;   (* outcome of the host calls to come: true = throws *)
  fresh : nat;          (* next handle the host gives out *)
  gained : list string  (* names added to Object.prototype, each an object *)
}.

Inductive Outcome (A : Type) := Ok (a : A) | Throw (e : Error).
Arguments Ok {A} a.
Arguments Throw {A} e.

Definition M (A : Type) := State -> Outcome A * State.

Definition ret {A} (a : A) : M A := fun st => (Ok a, st).

Definition bind {A B} (m : M A) (k : A -> M B) : M B :=
  fun st => match m st with
            | (Ok a, st') => k a st'
            | (Throw e, st') => (Throw e, st')
            end.

Declare Scope imp_scope.
Delimit Scope imp_scope with imp.
Notation "'let*' x ':=' c 'in' k" := (bind c (fun x => k))
  (at level 10, x name, c at level 100, k at level 200) : imp_scope.
Notation "c ';;' k" := (bind c (fun _ => k))
  (at level 100, k at level 200, right associativity) : imp_scope.
Local Open Scope imp_scope.

(** The state after the events [evs] have been issued. *)
Definition emits (evs : list Event) (st : State) : State :=
  {| trace := trace st ++ evs; faults := faults st; fresh := fresh st;
     gained := gained st |}.

Definition emit (e : Event) : State -> State := emits [e].

Definition log (e : Event) : M unit := fun st => (Ok tt, emit e st).

Definition console_error (msg : string) : M unit := log (ConsoleError msg).

(** [try { body } catch (e) { handler(e) }] *)
Definition try_catch {A} (body : M A) (handler : Error -> M A) : M A :=
  fun st => match body st with
            | (Ok a, st') => (Ok a, st')
            | (Throw e, st') => handler e st'
            end.

(** [try { body } finally { finalizer }]: the finalizer always runs; when
    it throws, its exception replaces the outcome of the body. *)
Definition try_finally {A} (body : M A) (finalizer : M unit) : M A :=
  fun st => match body st with
            | (r, st') =>
                match finalizer st' with
                | (Ok _, st'') => (r, st'')
                | (Throw e, st'') => (Throw e, st'')
                end
            end.

(** The next host call throws when the schedule says so. *)
Definition throws_next (st : State) : bool :=
  match faults st with
  | true :: _ => true
  | _ => false
  end.

(** The state after the host call [op] came back with [res]. *)
Definition returned (op : Op) (res : Result) (st : State) : State :=
  {| trace := trace st ++ [Await op res];
     faults := tail (faults st);
     fresh := match res with Gave _ => S (fresh st) | _ => fresh st end;
     gained := gained st |}.

(** A host call that returns a new object. *)
Definition create (op : Op) : M nat := fun st =>
  if throws_next st
  then (Throw (Failure op), returned op Threw st)
  else (Ok (fresh st), returned op (Gave (fresh st)) st).

(** A host call that returns nothing. *)
Definition command (op : Op) : M unit := fun st =>
  if throws_next st
  then (Throw (Failure op), returned op Threw st)
  else (Ok tt, returned op Done st).

(** A call whose answer [a] is known from the data. *)
Definition answer {A} (op : Op) (a : option A) : M A := fun st =>
  match a with
  | Some x => (Ok x, emit (Await op Done) st)
  | None => (Throw (Failure op), emit (Await op Threw) st)
  end.

(** [for (let i = 0; i < xs.length; ++i) body(xs[i])] *)
Fixpoint for_each {A} (xs : list A) (body : A -> M unit) : M unit :=
  match xs with
  | [] => ret tt
  | x :: rest => body x ;; for_each rest body
  end.

(** ** Group Collector *)

(** The property names of [Object.prototype]. *)
Definition Object_prototype : list string :=
  ["constructor"; "__defineGetter__"; "__defineSetter__"; "hasOwnProperty";
   "__lookupGetter__"; "__lookupSetter__"; "isPrototypeOf";
   "propertyIsEnumerable"; "toString"; "valueOf"; "__proto__";
   "toLocaleString"].

(** [name] is found on [Object.prototype]. *)
Definition inherits (st : State) (name : string) : bool :=
  includes Object_prototype name || includes (gained st) name.

(** What [groups[name]] evaluates to, when not [undefined]: a group of
    [groups] itself, or an object reached through [Object.prototype]
    ([Object], a method, [Object.prototype] itself, a gained buffer). *)
Inductive Found :=
| OwnGroup (group : ShapeGroup)
| Inherited.

(** [groups[name]] *)
Definition groups_get (groups : Groups) (name : string) : M (option Found) :=
  fun st =>
    (Ok match obj_get groups name with
        | Some group => Some (OwnGroup group)
        | None => if inherits st name then Some Inherited else None
        end,
     st).

(** The state after [Object.prototype[extension] = buffer]. *)
Definition gains (extension : string) (st : State) : State :=
  {| trace := trace st; faults := faults st; fresh := fresh st;
     gained := if includes (gained st) extension then gained st
               else gained st ++ [extension] |}.

(** [group[extension] = buffer] on the inherited object [groups[name]]:
    the write is seen again only when the object is [Object.prototype]. *)
Definition inherited_set (name extension : string) : M unit :=
  fun st => (Ok tt, if String.eqb name "__proto__" then gains extension st else st).

Definition addToGroups (groups : Groups) (item : WorkspaceItem) : M Groups :=
  let* bytes := answer (item_get (title item)) (get item) in
  let title := title item in
  let name := substring 0 (String.length title - 4) title in
  let extension := substring (String.length title - 3) 3 title in
  let* found := groups_get groups name in
  let '(group, groups) :=
    match found with
    | Some group => (group, groups)
    | None => (OwnGroup ∅, obj_set groups name ∅)
    end in
  if negb (includes ALLOWED_EXTENSIONS extension)
  then console_error ("Unsupported extension " +:+ extension) ;; ret groups
  else match group with
       | OwnGroup group => ret (obj_set groups name (<[extension := bytes]> group))
       | Inherited => inherited_set name extension ;; ret groups
       end.

(** The body of the loop of [extractGroups]; the inner [fix] is the
    recursive call on the children of a folder.  The listing is matched
    on directly, which keeps the recursion structural: [Some children]
    is [await item.propfind()] returning, [None] is it throwing. *)
Fixpoint extractGroups_item (groups : Groups) (item : WorkspaceItem) {struct item}
  : M Groups :=
  if String.eqb (mimeType item) "application/vnd.folder" then
    match propfind item with
    | Some children =>
        log (Await (item_propfind (title item)) Done) ;;
        (fix extractGroups (groups : Groups) (items : list WorkspaceItem) : M Groups :=
           match items with
           | [] => ret groups
           | item :: rest =>
               let* groups := extractGroups_item groups item in
               extractGroups groups rest
           end) groups children
    | None => answer (item_propfind (title item)) None
    end
  else if String.eqb (mimeType item) "application/octet-stream" then
    addToGroups groups item
  else
    console_error ("Unsupported MIME type " +:+ mimeType item) ;; ret groups.

Fixpoint extractGroups (groups : Groups) (items : list WorkspaceItem) : M Groups :=
  match items with
  | [] => ret groups
  | item :: rest =>
      let* groups := extractGroups_item groups item in
      extractGroups groups rest
  end.

(** ** Property records *)

Definition Number_isInteger (n : float) : bool :=
  match Prim2SF n with
  | S754_zero _ => true
  | S754_finite _ m e => (0 <=? e)%Z || (Z.pos m mod 2 ^ (- e) =? 0)%Z
  | _ => false
  end.

Definition featurePropValue (prop : PropertyValue) : M DwgValue :=
  match prop with
  | PNumber n =>
      ret (DObj [("$value", DNum n);
                 ("$type", DStr (if Number_isInteger n then "int" else "float"));
                 ("$units", DUndefined)])
  | PString s =>
      ret (DObj [("$value", DStr s); ("$type", DStr "string")])
  | PBoolean b =>
      ret (DObj [("$value", DBool b); ("$type", DStr "bool")])
  | PDate d =>
      ret (DObj [("$value", DStr (toLocaleString d)); ("$type", DStr "string")])
  | POther repr =>
      console_error ("Unsupported property type " +:+ repr) ;;
      ret (DObj [("$value", DRaw repr)])
  end.

Fixpoint featureProps_loop (props : Fields) (rawProps : list (string * PropertyValue))
  : M Fields :=
  match rawProps with
  | [] => ret props
  | (name, prop) :: rest =>
      let* v := featurePropValue prop in
      featureProps_loop (obj_set props name v) rest
  end.

Definition featureProps (rawProps : list (string * PropertyValue)) : M Fields :=
  featureProps_loop [] rawProps.

(** ** Geometry Mapper *)

(** [coordinates[i]]; a missing component is [undefined], which the
    scaling below turns into NaN. *)
Definition component (coordinates : vec) (i : nat) : float :=
  nth i coordinates nan.

Definition coordinatesToVec3 (coordinates : vec) : vec :=
  if 3 <=? length coordinates
  then [component coordinates 0; component coordinates 1; component coordinates 2]
  else [component coordinates 0; component coordinates 1; 0%float].

Definition SCALE : float := 1%float.

Definition scaleCoordinates (coordinates : vec) : vec :=
  map (fun c => (c * SCALE)%float) coordinates.

(** The literal [0.005] is read as the nearest binary64 value, as in JS. *)
#[local] Set Warnings "-inexact-float".
Definition radius : float := 0.005%float.

Definition featureGeometry (layer : nat) (rawGeometry : Geometry) : M unit :=
  match rawGeometry with
  | Point coordinates =>
      let* entity :=
        create (addCircle (scaleCoordinates (coordinatesToVec3 coordinates)) radius) in
      command (setx (HEntity entity) "$layer" (HLayer layer))
  | LineString coordinates =>
      let* entity :=
        if length coordinates =? 2
        then create (addLine (scaleCoordinates (coordinatesToVec3 (nth 0 coordinates [])))
                             (scaleCoordinates (coordinatesToVec3 (nth 1 coordinates []))))
        else create (addPolyline3d
                       (map (fun p => scaleCoordinates (coordinatesToVec3 p)) coordinates)
                       None) in
      command (setx (HEntity entity) "$layer" (HLayer layer))
  | Polygon rings =>
      for_each rings (fun coordinates =>
        let* entity :=
          create (addPolyline3d
                    (map (fun p => scaleCoordinates (coordinatesToVec3 p)) coordinates)
                    None) in
        command (setx (HEntity entity) "$layer" (HLayer layer)))
  | MultiPoint points =>
      for_each points (fun coordinates =>
        let* entity :=
          create (addCircle (scaleCoordinates (coordinatesToVec3 coordinates)) radius) in
        command (setx (HEntity entity) "$layer" (HLayer layer)))
  | MultiLineString lines =>
      for_each lines (fun coordinates =>
        let* entity :=
          if length coordinates =? 2
          then create (addLine (scaleCoordinates (coordinatesToVec3 (nth 0 coordinates [])))
                               (scaleCoordinates (coordinatesToVec3 (nth 1 coordinates []))))
          else create (addPolyline3d
                         (map (fun p => scaleCoordinates (coordinatesToVec3 p)) coordinates)
                         None) in
        command (setx (HEntity entity) "$layer" (HLayer layer)))
  | MultiPolygon polygons =>
      for_each polygons (fun polygonCoordinates =>
        for_each polygonCoordinates (fun coordinates =>
          let* entity :=
            create (addPolyline3d
                      (map (fun p => scaleCoordinates (coordinatesToVec3 p)) coordinates)
                      None) in
          command (setx (HEntity entity) "$layer" (HLayer layer))))
  | OtherGeometry type =>
      console_error ("Unsupported geometry type " +:+ type)
  end.

Definition SmdxElement : DwgValue := DTypeRef "SmdxElement".

Definition loadFeature (feature : Feature) : M nat :=
  let* layerData := featureProps (properties feature) in
  let layerData := obj_set layerData "$type" SmdxElement in
  let layerData := obj_set layerData "name" (DStr "") in
  let* layer := create (layers_add layerData) in
  log (SetDisabled layer true) ;;
  featureGeometry layer (geometry feature) ;;
  ret layer.

Section Importer.

(** The [shpjs] parser: [None] when it throws. *)
Variable shp : ShapeGroup -> option GeoJSON.

(** [context.tr]: the host's translation of a message and its argument. *)
Variable tr : string -> list string -> string.

(** The body of the loop of [loadShapes]. *)
Definition loadShapes_group (name : string) (group : ShapeGroup) : M unit :=
  let* geojson := answer (shp_parse group) (shp group) in
  if String.eqb (geojson_type geojson) "FeatureCollection" then
    let* parent := create (layers_add [("$type", SmdxElement); ("name", DStr name)]) in
    log (SetDisabled parent true) ;;
    for_each (features geojson) (fun feature =>
      if String.eqb (feature_type feature) "Feature" then
        let* layer := loadFeature feature in
        command (setx (HLayer layer) "$layer" (HLayer parent))
      else
        console_error ("Unsupported feature type " +:+ feature_type feature))
  else
    console_error ("Unsupported GeoJSON type " +:+ geojson_type geojson).

Definition loadShapes (groups : Groups) : M unit :=
  for_each groups (fun '(name, group) => loadShapes_group name group).

Definition import (workspace : Workspace) (drawing : Drawing) : M unit :=
  log BeginProgress ;;
  log (CreateOutputChannel "SHP") ;;
  try_finally
    (try_catch
       (log (OutputsInfo
               (tr "Импорт shape из {0}"
                   [default (title (root workspace)) (origin workspace)])) ;;
        log (ProgressIndeterminate true) ;;
        match layouts drawing ≫= model with
        | None => ret tt
        | Some layout =>
            log (ProgressDetails (tr "Чтение файла" [])) ;;
            let* items :=
              answer (item_propfind (title (root workspace)))
                     (propfind (root workspace)) in
            let* groups := extractGroups [] items in
            command beginEdit ;;
            try_finally (loadShapes groups) (command endEdit)
        end)
       (fun uncaughtException => log (OutputsError uncaughtException)))
    (log EndProgress).

End Importer.

(** * Vocabulary of the statements *)

(** ** Group Collector *)

(** The two strings [addToGroups] derives from a title. *)
Definition base_name (title : string) : string :=
  substring 0 (String.length title - 4) title.

Definition extension_of (title : string) : string :=
  substring (String.length title - 3) 3 title.
Arguments base_name : simpl never.
Arguments extension_of : simpl never.

(** What [addToGroups] leaves in [groups] for a fetched item whose base
    name is not found on [Object.prototype]. *)
Definition store (groups : Groups) (title : string) (bytes : Buffer) : Groups :=
  let group := default ∅ (obj_get groups (base_name title)) in
  obj_set groups (base_name title)
    (if includes ALLOWED_EXTENSIONS (extension_of title)
     then <[extension_of title := bytes]> group
     else group).

(** The same for a sequence of fetched items, first to last. *)
Definition store_all (groups : Groups) (es : list (string * Buffer)) : Groups :=
  fold_left (fun groups e => store groups e.1 e.2) es groups.

(** The buffer found at [groups[name][extension]]. *)
Definition buffer_at (groups : Groups) (name extension : string) : option Buffer :=
  obj_get groups name ≫= (.!! extension).

(** The opaque-binary items a traversal reaches, in the order it reaches
    them, each with its bytes; [None] when some fetch or listing fails. *)
Fixpoint entries_item (item : WorkspaceItem) {struct item}
  : option (list (string * Buffer)) :=
  if String.eqb (mimeType item) "application/vnd.folder" then
    match propfind item with
    | Some children =>
        (fix entries (items : list WorkspaceItem) : option (list (string * Buffer)) :=
           match items with
           | [] => Some []
           | item :: rest =>
               match entries_item item, entries rest with
               | Some a, Some b => Some (a ++ b)
               | _, _ => None
               end
           end) children
    | None => None
    end
  else if String.eqb (mimeType item) "application/octet-stream" then
    match get item with
    | Some bytes => Some [(title item, bytes)]
    | None => None
    end
  else Some [].

Fixpoint entries (items : list WorkspaceItem) : option (list (string * Buffer)) :=
  match items with
  | [] => Some []
  | item :: rest =>
      match entries_item item, entries rest with
      | Some a, Some b => Some (a ++ b)
      | _, _ => None
      end
  end.

(** The key under which an entry is written: base name and extension. *)
Definition entry_key (e : string * Buffer) : string * string :=
  (base_name e.1, extension_of e.1).

(** The events of [addToGroups] on a fetched item. *)
Definition addToGroups_events (title : string) : list Event :=
  Await (item_get title) Done ::
  (if includes ALLOWED_EXTENSIONS (extension_of title) then []
   else [ConsoleError ("Unsupported extension " +:+ extension_of title)]).

(** No base name among the entries is found on [Object.prototype]. *)
Definition not_inherited (st : State) (es : list (string * Buffer)) : Prop :=
  Forall (fun e => inherits st (base_name e.1) = false) es.

(** When every fetch and listing under [item] succeeds and no base name
    is found on [Object.prototype], the traversal returns, having stored
    the entries of [item] in order. *)
Definition collects (item : WorkspaceItem) : Prop :=
  forall es groups st,
    entries_item item = Some es -> not_inherited st es ->
    exists evs,
      extractGroups_item groups item st = (Ok (store_all groups es), emits evs st).

(** Where a new key goes: the keys before it are array indices that do
    not exceed it, and the key after it, if any, is a larger index or no
    index at all. *)
Definition index_upto (n : N) (k : string) : Prop :=
  exists m, array_index k = Some m /\ (m <= n)%N.

Definition index_above (n : N) (k : string) : Prop :=
  match array_index k with
  | Some m => (n < m)%N
  | None => True
  end.

(** [keys'] is [keys] with the new name [name] at its place. *)
Definition enters (name : string) (keys keys' : list string) : Prop :=
  exists before after,
    keys = before ++ after /\ keys' = before ++ name :: after /\
    match array_index name with
    | Some n =>
        Forall (index_upto n) before /\
        match after with
        | [] => True
        | k :: _ => index_above n k
        end
    | None => after = []
    end.

(** The events of [import] up to the collection of the groups. *)
Definition import_opening (tr : string -> list string -> string)
    (workspace : Workspace) : list Event :=
  [BeginProgress; CreateOutputChannel "SHP";
   OutputsInfo (tr "Импорт shape из {0}"
                   [default (title (root workspace)) (origin workspace)]);
   ProgressIndeterminate true;
   ProgressDetails (tr "Чтение файла" []);
   Await (item_propfind (title (root workspace))) Done].


(** The entry [e] is written at [groups[name][extension]]. *)
Definition writes (name extension : string) (e : string * Buffer) : bool :=
  String.eqb (base_name e.1) name && String.eqb (extension_of e.1) extension
  && includes ALLOWED_EXTENSIONS extension.

(** The buffer of the last entry of [es] written at [name], [extension]. *)
Fixpoint last_write (name extension : string) (es : list (string * Buffer))
  : option Buffer :=
  match es with
  | [] => None
  | e :: rest =>
      match last_write name extension rest with
      | Some b => Some b
      | None => if writes name extension e then Some e.2 else None
      end
  end.

(** ** Runs in which the host does not fail *)

(** None of the next [n] host calls throws. *)
Definition no_faults (n : nat) (st : State) : bool :=
  forallb negb (take n (faults st)).

(** The state after the events [evs], among them [calls] host calls that
    gave out [made] new objects. *)
Definition advance (evs : list Event) (calls made : nat) (st : State) : State :=
  {| trace := trace st ++ evs;
     faults := drop calls (faults st);
     fresh := fresh st + made;
     gained := gained st |}.

(** A primitive created by [op] as entity [h] and tagged with [layer]. *)
Definition tagged (layer : nat) (op : Op) (h : nat) : list Event :=
  [Await op (Gave h); Await (setx (HEntity h) "$layer" (HLayer layer)) Done].

(** The same for a sequence of primitives, the first being entity [h]. *)
Fixpoint tagged_all (layer : nat) (ops : list Op) (h : nat) : list Event :=
  match ops with
  | [] => []
  | op :: rest => tagged layer op h ++ tagged_all layer rest (S h)
  end.

(** A coordinate tuple as it reaches the host: made 3D, then scaled. *)
Abbreviation placed p := (scaleCoordinates (coordinatesToVec3 p)).

(** The primitive the source creates for one line. *)
Definition line_op (coordinates : list vec) : Op :=
  if length coordinates =? 2
  then addLine (placed (nth 0 coordinates [])) (placed (nth 1 coordinates []))
  else addPolyline3d (map (fun p => placed p) coordinates) None.

Definition ring_op (coordinates : list vec) : Op :=
  addPolyline3d (map (fun p => placed p) coordinates) None.

Definition point_op (coordinates : vec) : Op :=
  addCircle (placed coordinates) radius.

(** ** Property records *)

(** The typed field of the specification, one case per runtime type. *)
Definition typed_field (prop : PropertyValue) : DwgValue :=
  match prop with
  | PNumber n =>
      DObj [("$value", DNum n);
            ("$type", DStr (if Number_isInteger n then "int" else "float"));
            ("$units", DUndefined)]
  | PString s => DObj [("$value", DStr s); ("$type", DStr "string")]
  | PBoolean b => DObj [("$value", DBool b); ("$type", DStr "bool")]
  | PDate d => DObj [("$value", DStr (toLocaleString d)); ("$type", DStr "string")]
  | POther repr => DObj [("$value", DRaw repr)]
  end.

(** The diagnostic raised for a value of no supported type. *)
Definition unsupported (prop : PropertyValue) : list Event :=
  match prop with
  | POther repr => [ConsoleError ("Unsupported property type " +:+ repr)]
  | _ => []
  end.

Definition assign_typed (props : Fields) (kv : string * PropertyValue) : Fields :=
  obj_set props kv.1 (typed_field kv.2).

(** ** Runs with failures *)

(** [p] obeys [Q] when, from any state, it only adds events to the trace
    and [Q] relates its outcome to the events it added. *)
Definition obeys {A} (Q : Outcome A -> list Event -> Prop) (p : M A) : Prop :=
  forall st, exists evs, trace (p st).2 = trace st ++ evs /\ Q (p st).1 evs.

(** An awaited call that threw. *)
Definition failure (e : Event) : bool :=
  match e with
  | Await _ Threw => true
  | _ => false
  end.

(** What the collector and the mapper do while nothing fails: calls that
    came back (the edit session apart), flags and console diagnostics. *)
Definition work (e : Event) : bool :=
  match e with
  | Await beginEdit _ | Await endEdit _ => false
  | Await _ Threw => false
  | Await _ _ => true
  | SetDisabled _ _ | ConsoleError _ => true
  | _ => false
  end.

Definition session_op (op : Op) : bool :=
  match op with
  | beginEdit | endEdit => true
  | _ => false
  end.

(** A piece of work either completes, or stops at the first call that
    throws and raises the failure of that call. *)
Definition segment {A} (r : Outcome A) (evs : list Event) : Prop :=
  match r with
  | Ok _ => Forall (fun e => work e = true) evs
  | Throw e =>
      exists evs0 op,
        evs = evs0 ++ [Await op Threw] /\
        Forall (fun e => work e = true) evs0 /\
        e = Failure op
  end.

Definition clean {A} (p : M A) : Prop := obeys segment p.

(** ** Tagging of primitives *)

Definition is_primitive (op : Op) : bool :=
  match op with
  | addCircle _ _ | addLine _ _ | addPolyline3d _ _ => true
  | _ => false
  end.

(** The next event is the call that tags entity [h] with [layer]. *)
Definition tag_follows (layer h : nat) (rest : list Event) : bool :=
  match rest with
  | Await (setx (HEntity h') key (HLayer l)) (Done | Threw) :: _ =>
      Nat.eqb h' h && String.eqb key "$layer" && Nat.eqb l layer
  | _ => false
  end.

(** Every object handed out is a primitive, tagged by the very next call. *)
Fixpoint tagged_at_once (layer : nat) (evs : list Event) : bool :=
  match evs with
  | [] => true
  | e :: rest =>
      match e with
      | Await op (Gave h) => is_primitive op && tag_follows layer h rest
      | _ => true
      end && tagged_at_once layer rest
  end.

Definition tags (layer : nat) {A} (p : M A) : Prop :=
  obeys (fun _ evs => tagged_at_once layer evs = true) p.

(** ** The import operation *)

(** Events that are neither a failure, nor a bracket of the edit session,
    nor an error report, nor the end of the progress. *)
Definition calm (e : Event) : bool :=
  match e with
  | Await beginEdit _ | Await endEdit _ => false
  | Await _ Threw => false
  | OutputsError _ | EndProgress => false
  | _ => true
  end.

Definition all_calm (evs : list Event) : Prop := Forall (fun e => calm e = true) evs.

Definition no_failure (evs : list Event) : Prop :=
  Forall (fun e => failure e = false) evs.

(** How the mutation phase ends: the outcome of
    [try { loadShapes } finally { endEdit }] and its last events. *)
Inductive session_end : Outcome unit -> list Event -> Prop :=
| end_done :
    session_end (Ok tt) [Await endEdit Done]
| end_failed :
    session_end (Throw (Failure endEdit)) [Await endEdit Threw]
| end_after_failure op :
    session_end (Throw (Failure op)) [Await op Threw; Await endEdit Done]
| end_failed_after_failure op :
    session_end (Throw (Failure endEdit)) [Await op Threw; Await endEdit Threw].

(** What the [catch] of [import] adds. *)
Definition report {A} (r : Outcome A) : list Event :=
  match r with
  | Ok _ => []
  | Throw e => [OutputsError e]
  end.

(** The three ways a run of [import] can go. *)
Inductive import_shape : list Event -> Prop :=
| shape_no_session pre :
    all_calm pre ->
    import_shape (pre ++ [EndProgress])
| shape_aborted pre op :
    all_calm pre ->
    import_shape (pre ++ [Await op Threw; OutputsError (Failure op); EndProgress])
| shape_session pre body r tail_ :
    all_calm pre -> all_calm body -> session_end r tail_ ->
    import_shape (pre ++ Await beginEdit Done :: body ++ tail_ ++ report r ++ [EndProgress]).

(** The progress handle is ended, once, as the last thing the run does. *)
Definition progress_ended (evs : list Event) : Prop :=
  exists evs0, evs = evs0 ++ [EndProgress] /\ EndProgress ∉ evs0.

(** Wherever [beginEdit] returned, a call of [endEdit] follows. *)
Definition session_released (evs : list Event) : Prop :=
  forall pre post,
    evs = pre ++ Await beginEdit Done :: post ->
    exists mid res rest, post = mid ++ Await endEdit res :: rest.

(** Without a failure nothing is reported.  After the first failure the
    run only ends the edit session, when one is open, reports one error
    and ends the progress; the error is that failure, or the failure of
    [endEdit] when [endEdit] throws too. *)
Definition failure_handled (evs : list Event) : Prop :=
  (no_failure evs -> forall e, OutputsError e ∉ evs) /\
  (forall pre op post,
      evs = pre ++ Await op Threw :: post -> no_failure pre ->
      post = [OutputsError (Failure op); EndProgress] \/
      post = [Await endEdit Done; OutputsError (Failure op); EndProgress] \/
      post = [Await endEdit Threw; OutputsError (Failure endEdit); EndProgress]).

(** Each failure is reported (the reading under which C8 fails). *)
Definition every_failure_reported (evs : list Event) : Prop :=
  forall op, Await op Threw ∈ evs -> OutputsError (Failure op) ∈ evs.

(** How [import] ends after the edit session, whose run is [session]:
    the failure, if any, is reported and the progress is ended. *)
Definition import_closing (session : Outcome unit * State) : Outcome unit * State :=
  (Ok tt, emits (report session.1 ++ [EndProgress]) session.2).

(** ** A workspace, a parser and a host to run the importer on *)

Definition sample_shp : WorkspaceItem :=
  Item "application/octet-stream" "roads.shp" (Some [Byte.x01]) None.
Definition sample_dbf : WorkspaceItem :=
  Item "application/octet-stream" "roads.dbf" (Some [Byte.x02]) None.
Definition sample_sbn : WorkspaceItem :=
  Item "application/octet-stream" "roads.sbn" (Some [Byte.x03]) None.
Definition idle : State :=
  {| trace := []; faults := []; fresh := 0; gained := [] |}.

(** Items whose base name is found on [Object.prototype], from the start
    or once [__proto__.dbf] has been collected. *)
Definition sample_toString : WorkspaceItem :=
  Item "application/octet-stream" "toString.sbn" (Some [Byte.x01]) None.
Definition sample_constructor : WorkspaceItem :=
  Item "application/octet-stream" "constructor.shp" (Some [Byte.x01]) None.


(** A file whose base name is an array index. *)
Definition sample_year : WorkspaceItem :=
  Item "application/octet-stream" "2020.shp" (Some [Byte.x01]) None.

(** A workspace that holds one file of unrecognised extension. *)
Definition sample_workspace_sbn : Workspace :=
  {| origin := None;
     root := Item "application/vnd.folder" "roads" None (Some [sample_sbn]) |}.

(** A parser that needs the [shp] part, as [shpjs] does, and returns one
    Point feature. *)
Definition sample_parser (group : ShapeGroup) : option GeoJSON :=
  match group !! "shp" with
  | Some _ =>
      Some {| geojson_type := "FeatureCollection";
              features :=
                [{| feature_type := "Feature";
                    geometry := Point [10%float; 20%float];
                    properties := [("area", PNumber 42%float)] |}] |}
  | None => None
  end.

Definition sample_tr (message : string) (args : list string) : string := message.

Definition sample_workspace : Workspace :=
  {| origin := None;
     root := Item "application/vnd.folder" "parcels" None
               (Some [Item "application/octet-stream" "parcels.shp" (Some [Byte.x01]) None;
                      Item "application/octet-stream" "parcels.dbf" (Some [Byte.x02]) None]) |}.

Definition sample_drawing : Drawing :=
  {| layouts := Some {| model := Some ModelLayout |} |}.

Definition sample_group : ShapeGroup :=
  <["dbf" := [Byte.x02]]> (<["shp" := [Byte.x01]]> ∅).

(** A host on which [beginEdit] returns and the next two calls throw. *)
Definition host_down : State :=
  {| trace := []; faults := [false; true; true]; fresh := 0; gained := [] |}.


(** ** What a run may contain *)

(** [p] only issues events of the class [c], failing calls included. *)
Definition only (c : Event -> bool) {A} (p : M A) : Prop :=
  obeys (fun _ evs => Forall (fun e => c e = true) evs) p.

(** Fetches, listings and console diagnostics. *)
Definition io_event (e : Event) : bool :=
  match e with
  | Await (item_get _) _ | Await (item_propfind _) _ => true
  | ConsoleError _ => true
  | _ => false
  end.

(** Calls on the drawing and its editor, the edit session apart, with
    the flags and diagnostics that go with them. *)
Definition drawing_event (e : Event) : bool :=
  match e with
  | Await (layers_add _) _ | Await (addCircle _ _) _ | Await (addLine _ _) _
  | Await (addPolyline3d _ _) _ | Await (setx _ _ _) _ => true
  | SetDisabled _ _ | ConsoleError _ => true
  | _ => false
  end.

(** A call on the drawing or its editor, [beginEdit] and [endEdit] included. *)
Definition host_event (e : Event) : bool :=
  match e with
  | Await (layers_add _) _ | Await (addCircle _ _) _ | Await (addLine _ _) _
  | Await (addPolyline3d _ _) _ | Await (setx _ _ _) _
  | Await beginEdit _ | Await endEdit _ => true
  | SetDisabled _ _ => true
  | _ => false
  end.

(** A bracket of the edit session. *)
Definition session_event (e : Event) : bool :=
  match e with
  | Await beginEdit _ | Await endEdit _ => true
  | _ => false
  end.


(** ** Geometry Mapper, all variants *)











(** What the Geometry Mapper issues: parser calls and drawing events. *)
Definition mapper_event (e : Event) : bool :=
  match e with
  | Await (shp_parse _) _ => true
  | _ => drawing_event e
  end.

(** ** More sample inputs *)

Definition sample_text : WorkspaceItem :=
  Item "text/plain" "notes.txt" None None.



Definition sample_drawing_bare : Drawing := {| layouts := None |}.

(** * Facts on objects and states *)

Lemma obj_get_app {V} (a b : list (string * V)) name :
  obj_get (a ++ b) name =
    match obj_get a name with
    | Some v => Some v
    | None => obj_get b name
    end.
Proof.
  induction a as [|[k v0] a IH]; simpl; [done|].
  by destruct (String.eqb k name).
Qed.

Lemma obj_get_replace_eq {V} (o : list (string * V)) name v :
  is_Some (obj_get o name) -> obj_get (obj_replace o name v) name = Some v.
Proof.
  induction o as [|[k v0] rest IH]; simpl; [by intros [? ?]|].
  destruct (String.eqb k name) eqn:E; simpl; rewrite E; auto.
Qed.

Lemma obj_get_replace_ne {V} (o : list (string * V)) name name' v :
  name <> name' -> obj_get (obj_replace o name v) name' = obj_get o name'.
Proof.
  intros Hne. induction o as [|[k v0] rest IH]; simpl; [done|].
  destruct (String.eqb k name) eqn:E; simpl; [|by rewrite IH].
  apply String.eqb_eq in E. subst k.
  apply String.eqb_neq in Hne. by rewrite Hne.
Qed.

Lemma obj_replace_replace {V} (o : list (string * V)) name v v' :
  obj_replace (obj_replace o name v) name v' = obj_replace o name v'.
Proof.
  induction o as [|[k v0] rest IH]; simpl; [done|].
  destruct (String.eqb k name) eqn:E; simpl; rewrite E; [done|by rewrite IH].
Qed.

Lemma obj_replace_keys {V} (o : list (string * V)) name v :
  (obj_replace o name v).*1 = o.*1.
Proof.
  induction o as [|[k v0] rest IH]; simpl; [done|].
  destruct (String.eqb k name); simpl; [done|]. f_equal. apply IH.
Qed.

Lemma obj_insert_index_split {V} (o : list (string * V)) n name v :
  exists a b,
    o = a ++ b /\ obj_insert_index o n name v = a ++ (name, v) :: b /\
    Forall (index_upto n) a.*1 /\
    match b with [] => True | kv :: _ => index_above n kv.1 end.
Proof.
  induction o as [|[k v0] rest IH]; simpl.
  - by exists [], [].
  - destruct (array_index k) as [m|] eqn:Ek.
    + destruct (n <? m)%N eqn:Elt.
      * exists [], ((k, v0) :: rest). repeat split; [constructor|].
        unfold index_above. simpl. rewrite Ek. by apply N.ltb_lt.
      * destruct IH as (a & b & -> & -> & Ha & Hb).
        exists ((k, v0) :: a), b. repeat split; [|done].
        constructor; [|done]. exists m. split; [done|]. by apply N.ltb_ge.
    + exists [], ((k, v0) :: rest). repeat split; [constructor|].
      unfold index_above. simpl. by rewrite Ek.
Qed.

Lemma obj_set_new_split {V} (o : list (string * V)) name v :
  obj_get o name = None ->
  exists a b, o = a ++ b /\ obj_set o name v = a ++ (name, v) :: b.
Proof.
  intros H. unfold obj_set. rewrite H.
  destruct (array_index name) as [n|].
  - destruct (obj_insert_index_split o n name v) as (a & b & ? & ? & _). by exists a, b.
  - exists o, []. by rewrite app_nil_r.
Qed.

Lemma obj_replace_new {V} (a b : list (string * V)) name v v' :
  obj_get a name = None ->
  obj_replace (a ++ (name, v) :: b) name v' = a ++ (name, v') :: b.
Proof.
  induction a as [|[k v0] a IH]; simpl.
  - by rewrite String.eqb_refl.
  - destruct (String.eqb k name); [done|]. intros H. by rewrite IH.
Qed.

Lemma obj_get_set_eq {V} (o : list (string * V)) name v :
  obj_get (obj_set o name v) name = Some v.
Proof.
  destruct (obj_get o name) as [v0|] eqn:E.
  - unfold obj_set. rewrite E. apply obj_get_replace_eq. by rewrite E.
  - destruct (obj_set_new_split o name v E) as (a & b & -> & ->).
    rewrite obj_get_app in E. rewrite obj_get_app.
    destruct (obj_get a name); [done|]. simpl. by rewrite String.eqb_refl.
Qed.

Lemma obj_get_set_ne {V} (o : list (string * V)) name name' v :
  name <> name' ->
  obj_get (obj_set o name v) name' = obj_get o name'.
Proof.
  intros Hne. destruct (obj_get o name) as [v0|] eqn:E.
  - unfold obj_set. rewrite E. by apply obj_get_replace_ne.
  - destruct (obj_set_new_split o name v E) as (a & b & -> & ->).
    rewrite !obj_get_app. simpl.
    apply String.eqb_neq in Hne. by rewrite Hne.
Qed.

Lemma obj_replace_insert_index {V} (o : list (string * V)) n name v v' :
  obj_get o name = None ->
  obj_replace (obj_insert_index o n name v) name v' = obj_insert_index o n name v'.
Proof.
  induction o as [|[k v0] rest IH]; simpl.
  - by rewrite String.eqb_refl.
  - destruct (String.eqb k name) eqn:E; [done|]. intros H.
    destruct (array_index k) as [m|]; [destruct (n <? m)%N|]; simpl.
    + by rewrite String.eqb_refl.
    + by rewrite E, IH.
    + by rewrite String.eqb_refl.
Qed.

Lemma obj_set_set {V} (o : list (string * V)) name v v' :
  obj_set (obj_set o name v) name v' = obj_set o name v'.
Proof.
  unfold obj_set at 1. rewrite obj_get_set_eq.
  destruct (obj_get o name) as [v0|] eqn:E; unfold obj_set; rewrite E.
  - apply obj_replace_replace.
  - destruct (array_index name) as [n|].
    + by apply obj_replace_insert_index.
    + by apply obj_replace_new.
Qed.

Lemma obj_set_get {V} (o : list (string * V)) name v :
  obj_get o name = Some v -> obj_set o name v = o.
Proof.
  intros H. unfold obj_set. rewrite H.
  revert H. induction o as [|[k v0] rest IH]; simpl; [done|].
  destruct (String.eqb k name) eqn:E.
  - by intros [= ->].
  - intros H. by rewrite IH.
Qed.

Lemma emits_emits a b st : emits b (emits a st) = emits (a ++ b) st.
Proof. unfold emits; simpl. by rewrite app_assoc. Qed.

Lemma emits_nil st : emits [] st = st.
Proof. destruct st; unfold emits; simpl. by rewrite app_nil_r. Qed.

Lemma inherits_emits evs st name : inherits (emits evs st) name = inherits st name.
Proof. reflexivity. Qed.

(** * Group Collector *)

Lemma addToGroups_run groups item bytes st :
  get item = Some bytes ->
  inherits st (base_name (title item)) = false ->
  addToGroups groups item st =
    (Ok (store groups (title item) bytes), emits (addToGroups_events (title item)) st).
Proof.
  intros Hget Hown.
  unfold addToGroups, bind, answer, groups_get, store, addToGroups_events,
    console_error, log, emit, ret.
  rewrite Hget. fold (base_name (title item)) (extension_of (title item)).
  rewrite inherits_emits, Hown.
  destruct (obj_get groups (base_name (title item))) as [g|] eqn:E;
    destruct (includes ALLOWED_EXTENSIONS (extension_of (title item))) eqn:I; simpl.
  - reflexivity.
  - by rewrite (obj_set_get _ _ _ E), emits_emits.
  - by rewrite obj_set_set.
  - by rewrite emits_emits.
Qed.

(** Induction on a workspace tree: the children of a folder satisfy the
    property before the folder does. *)
Lemma WorkspaceItem_tree_ind (P : WorkspaceItem -> Prop) :
  (forall m t g pf,
      match pf with Some cs => Forall P cs | None => True end ->
      P (Item m t g pf)) ->
  forall item, P item.
Proof.
  intros H. fix IH 1. intros [m t g pf]. apply H.
  destruct pf as [cs|]; [|exact I].
  induction cs as [|c cs IHcs]; constructor; [apply IH | exact IHcs].
Qed.

Lemma store_all_app groups a b :
  store_all groups (a ++ b) = store_all (store_all groups a) b.
Proof. unfold store_all. apply fold_left_app. Qed.

Lemma extractGroups_run_children items :
  Forall collects items ->
  forall es groups st,
    entries items = Some es -> not_inherited st es ->
    exists evs, extractGroups groups items st = (Ok (store_all groups es), emits evs st).
Proof.
  induction 1 as [|item rest Hitem _ IH]; intros es groups st; simpl.
  - intros [= <-] _. exists []. by rewrite emits_nil.
  - destruct (entries_item item) as [a|] eqn:Ea; [|discriminate].
    destruct (entries rest) as [b|] eqn:Eb; [|discriminate].
    intros [= <-] Hown. apply Forall_app in Hown as [Ha Hb]. unfold bind.
    destruct (Hitem a groups st Ea Ha) as [evs1 ->].
    destruct (IH b (store_all groups a) (emits evs1 st) eq_refl Hb) as [evs2 ->].
    exists (evs1 ++ evs2). by rewrite emits_emits, store_all_app.
Qed.

Lemma extractGroups_item_run item : collects item.
Proof.
  induction item as [m t g pf IH] using WorkspaceItem_tree_ind.
  intros es groups st.
  change (entries_item (Item m t g pf)) with
    (if String.eqb m "application/vnd.folder" then
       match pf with Some children => entries children | None => None end
     else if String.eqb m "application/octet-stream" then
       match g with Some bytes => Some [(t, bytes)] | None => None end
     else Some []).
  change (extractGroups_item groups (Item m t g pf)) with
    (if String.eqb m "application/vnd.folder" then
       match pf with
       | Some children =>
           log (Await (item_propfind t) Done) ;; extractGroups groups children
       | None => answer (item_propfind t) None
       end
     else if String.eqb m "application/octet-stream" then
       addToGroups groups (Item m t g pf)
     else console_error ("Unsupported MIME type " +:+ m) ;; ret groups).
  destruct (String.eqb m "application/vnd.folder").
  - destruct pf as [cs|]; [|discriminate]. intros Hes Hown.
    unfold bind, log, emit.
    destruct (extractGroups_run_children cs IH es groups
                (emits [Await (item_propfind t) Done] st) Hes Hown) as [evs ->].
    eexists. by rewrite emits_emits.
  - destruct (String.eqb m "application/octet-stream").
    + destruct g as [bytes|]; [|discriminate]. intros [= <-] Hown.
      apply Forall_cons in Hown as [Hown _].
      eexists. by rewrite (addToGroups_run _ _ bytes).
    + intros [= <-] _. by eexists.
Qed.

Lemma extractGroups_run items es groups st :
  entries items = Some es -> not_inherited st es ->
  exists evs, extractGroups groups items st = (Ok (store_all groups es), emits evs st).
Proof.
  apply extractGroups_run_children, Forall_forall.
  intros item _. apply extractGroups_item_run.
Qed.

(** ** What a sequence of stores leaves under a name *)

Lemma writes_key name extension e :
  writes name extension e = true -> entry_key e = (name, extension).
Proof.
  unfold writes, entry_key. intros H.
  apply andb_prop in H as [H _]. apply andb_prop in H as [H1 H2].
  apply String.eqb_eq in H1, H2. by subst.
Qed.

Lemma obj_get_store groups t b name :
  obj_get (store groups t b) name =
    if String.eqb (base_name t) name
    then Some (if includes ALLOWED_EXTENSIONS (extension_of t)
               then <[extension_of t := b]> (default ∅ (obj_get groups (base_name t)))
               else default ∅ (obj_get groups (base_name t)))
    else obj_get groups name.
Proof.
  unfold store. destruct (String.eqb (base_name t) name) eqn:E.
  - apply String.eqb_eq in E. subst name. apply obj_get_set_eq.
  - apply String.eqb_neq in E. by apply obj_get_set_ne.
Qed.

Lemma buffer_at_store groups t b name extension :
  buffer_at (store groups t b) name extension =
    if writes name extension (t, b) then Some b else buffer_at groups name extension.
Proof.
  unfold buffer_at, writes. rewrite obj_get_store. simpl.
  destruct (String.eqb (base_name t) name) eqn:En; simpl; [|done].
  apply String.eqb_eq in En. subst name.
  destruct (String.eqb (extension_of t) extension) eqn:Ee; simpl.
  - apply String.eqb_eq in Ee. subst extension.
    destruct (includes ALLOWED_EXTENSIONS (extension_of t)); simpl.
    + by rewrite lookup_insert_eq.
    + by destruct (obj_get groups (base_name t)).
  - apply String.eqb_neq in Ee.
    destruct (includes ALLOWED_EXTENSIONS (extension_of t)); simpl.
    + rewrite lookup_insert_ne by done. by destruct (obj_get groups (base_name t)).
    + by destruct (obj_get groups (base_name t)).
Qed.

Lemma present_store groups t b name :
  is_Some (obj_get (store groups t b) name) <->
  base_name t = name \/ is_Some (obj_get groups name).
Proof.
  rewrite obj_get_store. destruct (String.eqb (base_name t) name) eqn:E.
  - apply String.eqb_eq in E. split; eauto.
  - apply String.eqb_neq in E. split; [by right|]. by intros [?|?].
Qed.

Lemma buffer_at_store_all es : forall groups name extension,
  buffer_at (store_all groups es) name extension =
    match last_write name extension es with
    | Some b => Some b
    | None => buffer_at groups name extension
    end.
Proof.
  induction es as [|[t b] rest IH]; intros groups name extension; simpl; [done|].
  change (store_all groups ((t, b) :: rest)) with (store_all (store groups t b) rest).
  rewrite IH. destruct (last_write name extension rest); [done|].
  rewrite buffer_at_store. by destruct (writes name extension (t, b)).
Qed.

Lemma present_store_all es : forall groups name,
  is_Some (obj_get (store_all groups es) name) <->
  is_Some (obj_get groups name) \/ exists e, e ∈ es /\ base_name e.1 = name.
Proof.
  induction es as [|[t b] rest IH]; intros groups name.
  - simpl. split; [by left|]. intros [?|(e & He & _)]; [done|]. by apply elem_of_nil in He.
  - change (store_all groups ((t, b) :: rest)) with (store_all (store groups t b) rest).
    rewrite IH, present_store. split.
    + intros [[<-|?]|(e & He & <-)].
      * right. exists (t, b). split; [left|done].
      * by left.
      * right. exists e. split; [by right|done].
    + intros [?|(e & He & <-)]; [by left; right|].
      apply elem_of_cons in He as [->|He]; [by left; left|].
      right. by exists e.
Qed.

Lemma last_write_Some name extension es b :
  last_write name extension es = Some b ->
  exists e, e ∈ es /\ writes name extension e = true /\ e.2 = b.
Proof.
  induction es as [|e rest IH]; simpl; [done|].
  destruct (last_write name extension rest) as [b'|].
  - intros [= <-]. destruct (IH eq_refl) as (e' & He' & Hw & Hb).
    exists e'. split; [by right|done].
  - destruct (writes name extension e) eqn:Hw; [|done].
    intros [= <-]. exists e. split; [left|done].
Qed.







Lemma store_unrecognised_keeps_buffers groups t b name extension :
  includes ALLOWED_EXTENSIONS (extension_of t) = false ->
  buffer_at (store groups t b) name extension = buffer_at groups name extension.
Proof.
  intros Hno. rewrite buffer_at_store. unfold writes. simpl.
  destruct (String.eqb (extension_of t) extension) eqn:E.
  - apply String.eqb_eq in E. subst extension. rewrite Hno.
    by rewrite andb_false_r.
  - by rewrite andb_false_r.
Qed.





(** C10, as amended.  [addToGroups] fetches the bytes first and, when the
    title minus its last four characters is not found on
    [Object.prototype], enters a group under that name before it looks at
    the extension: whatever the extension, the name is a key afterwards.
    For an unrecognised extension the entry stays as it was, empty when
    the name was new, and the diagnostic follows the fetch.  The entry is
    still there in the record [extractGroups] returns, and that record is
    the one [import] runs [loadShapes] on once [beginEdit] has returned;
    [Object.prototype] having gained no name, the names [for ... in]
    visits are those of the record. *)
Theorem addToGroups_enters_group_before_validation :
  (forall groups item bytes st,
      get item = Some bytes ->
      inherits st (base_name (title item)) = false ->
      exists groups',
        addToGroups groups item st =
          (Ok groups', emits (addToGroups_events (title item)) st) /\
        is_Some (obj_get groups' (base_name (title item))) /\
        (includes ALLOWED_EXTENSIONS (extension_of (title item)) = false ->
         obj_get groups' (base_name (title item)) =
           Some (default ∅ (obj_get groups (base_name (title item)))) /\
         addToGroups_events (title item) =
           [Await (item_get (title item)) Done;
            ConsoleError ("Unsupported extension " +:+ extension_of (title item))]))
  /\
  (forall items es t b st,
      entries items = Some es -> not_inherited st es -> (t, b) ∈ es ->
      exists groups',
        (extractGroups [] items st).1 = Ok groups' /\
        is_Some (obj_get groups' (base_name t)))
  /\
  (forall shp tr workspace drawing layout items es st,
      layouts drawing ≫= model = Some layout ->
      propfind (root workspace) = Some items ->
      entries items = Some es ->
      gained st = [] -> not_inherited st es ->
      throws_next st = false ->
      exists groups evs,
        import shp tr workspace drawing st =
          import_closing
            (try_finally (loadShapes shp groups) (command endEdit)
               (returned beginEdit Done
                  (emits (import_opening tr workspace ++ evs) st))) /\
        forall t b, (t, b) ∈ es -> is_Some (obj_get groups (base_name t))).
Proof.
  split; [|split].
  - intros groups item bytes st Hget Hown.
    exists (store groups (title item) bytes). split; [by apply addToGroups_run|].
    split.
    + apply present_store. by left.
    + intros Hno. split.
      * rewrite obj_get_store, String.eqb_refl. by rewrite Hno.
      * unfold addToGroups_events. by rewrite Hno.
  - intros items es t b st Hes Hown Hin.
    destruct (extractGroups_run items es [] st Hes Hown) as [evs R].
    eexists. rewrite R. split; [done|].
    apply present_store_all. right. by exists (t, b).
  - intros shp tr workspace drawing layout items es st Hlayout Hroot Hes _ Hown Hbegin.
    exists (store_all [] es).
    destruct (extractGroups_run items es []
                (emits (import_opening tr workspace) st) Hes Hown) as [evs R].
    exists evs. split.
    + unfold import, import_closing, try_finally at 1, try_catch, bind, log, emit, answer.
      rewrite Hlayout, Hroot. cbn beta iota. unfold emit.
      rewrite !emits_emits. cbn [app].
      change (emits [BeginProgress; CreateOutputChannel "SHP";
                     OutputsInfo (tr "Импорт shape из {0}"
                                     [default (title (root workspace)) (origin workspace)]);
                     ProgressIndeterminate true;
                     ProgressDetails (tr "Чтение файла" []);
                     Await (item_propfind (title (root workspace))) Done] st)
        with (emits (import_opening tr workspace) st).
      rewrite R, emits_emits. unfold command at 1.
      change (throws_next (emits (import_opening tr workspace ++ evs) st))
        with (throws_next st).
      rewrite Hbegin.
      destruct (try_finally (loadShapes shp (store_all [] es)) (command endEdit) _)
        as [[[]|e] st']; simpl; by rewrite ?emits_emits.
    + intros t b Hin. apply present_store_all. right. by exists (t, b).
Qed.

(** C10 does not hold for every title.  [groups["toString"]] is the
    method every object inherits, not [undefined]: no group is entered
    for [toString.sbn], and the record stays empty. *)
Lemma addToGroups_inherited_name_not_entered :
  get sample_toString = Some [Byte.x01] /\
  addToGroups [] sample_toString idle =
    (Ok [], emits [Await (item_get "toString.sbn") Done;
                   ConsoleError "Unsupported extension sbn"] idle) /\
  ~ exists groups',
      (addToGroups [] sample_toString idle).1 = Ok groups' /\
      is_Some (obj_get groups' (base_name (title sample_toString))).
Proof.
  split; [reflexivity|]. split; [reflexivity|].
  intros (groups' & Hrun & Hkey).
  change (Ok [] = Ok groups') in Hrun. injection Hrun as <-.
  by destruct Hkey.
Qed.

(** C1, at a failing input.  A lone [roads.sbn] is skipped with a
    diagnostic and its bytes go nowhere, yet the record is not the one
    produced without the item: it has gained the empty group [roads]. *)
Theorem extractGroups_unrecognised_leaves_group :
  let item := Item "application/octet-stream" "roads.sbn" (Some [Byte.x01]) None in
  let st := {| trace := []; faults := []; fresh := 0; gained := [] |} in
  extractGroups [] [item] st =
    (Ok [("roads", ∅)],
     emits [Await (item_get "roads.sbn") Done;
            ConsoleError "Unsupported extension sbn"] st)
  /\ extractGroups [] [] st = (Ok [], st).
Proof. split; reflexivity. Qed.


Lemma addToGroups_enters_group_before_validation_witness :
  (exists groups',
      addToGroups [] sample_sbn idle =
        (Ok groups', emits (addToGroups_events "roads.sbn") idle) /\
      is_Some (obj_get groups' "roads") /\
      (includes ALLOWED_EXTENSIONS "sbn" = false ->
       obj_get groups' "roads" = Some ∅ /\
       addToGroups_events "roads.sbn" =
         [Await (item_get "roads.sbn") Done;
          ConsoleError "Unsupported extension sbn"]))
  /\
  (exists groups evs,
      import sample_parser sample_tr sample_workspace_sbn sample_drawing idle =
        import_closing
          (try_finally (loadShapes sample_parser groups) (command endEdit)
             (returned beginEdit Done
                (emits (import_opening sample_tr sample_workspace_sbn ++ evs) idle))) /\
      forall t b, (t, b) ∈ [("roads.sbn", [Byte.x03])] ->
                  is_Some (obj_get groups (base_name t))).
Proof.
  split.
  - apply (proj1 addToGroups_enters_group_before_validation [] sample_sbn [Byte.x03] idle).
    + reflexivity.
    + reflexivity.
  - apply (proj2 (proj2 addToGroups_enters_group_before_validation)
             sample_parser sample_tr sample_workspace_sbn sample_drawing ModelLayout
             [sample_sbn]).
    + reflexivity.
    + reflexivity.
    + reflexivity.
    + reflexivity.
    + repeat constructor.
    + reflexivity.
Defined.

(** * Geometry Mapper: runs in which the host does not fail *)

Lemma advance_advance e1 c1 m1 e2 c2 m2 st :
  advance e2 c2 m2 (advance e1 c1 m1 st) = advance (e1 ++ e2) (c1 + c2) (m1 + m2) st.
Proof.
  unfold advance; simpl. f_equal.
  - by rewrite app_assoc.
  - by rewrite drop_drop.
  - lia.
Qed.

Lemma advance_0 st : advance [] 0 0 st = st.
Proof.
  destruct st. unfold advance; simpl. f_equal; [apply app_nil_r | lia].
Qed.

Lemma no_faults_S n st :
  no_faults (S n) st = true -> throws_next st = false.
Proof.
  unfold no_faults, throws_next. destruct (faults st) as [|[] rest]; simpl; auto.
Qed.

Lemma no_faults_advance n c evs made st :
  no_faults (c + n) st = true -> no_faults n (advance evs c made st) = true.
Proof.
  unfold no_faults; simpl. generalize (faults st) as l.
  induction c as [|c IH]; intros l; simpl; [done|].
  destruct l as [|b l]; simpl.
  - by destruct n.
  - intros H. apply andb_prop in H as [_ H]. by apply IH.
Qed.

Lemma no_faults_le n m st :
  n <= m -> no_faults m st = true -> no_faults n st = true.
Proof.
  unfold no_faults. generalize (faults st) as l. revert m.
  induction n as [|n IH]; intros m l Hle; simpl; [done|].
  destruct m as [|m]; [lia|]. destruct l as [|b l]; simpl; [done|].
  intros H. apply andb_prop in H as [-> H]. simpl. apply (IH m); [lia|done].
Qed.

Lemma create_run op st :
  throws_next st = false ->
  create op st = (Ok (fresh st), advance [Await op (Gave (fresh st))] 1 1 st).
Proof.
  intros H. unfold create, returned, advance. rewrite H. do 2 f_equal. lia.
Qed.

Lemma command_run op st :
  throws_next st = false ->
  command op st = (Ok tt, advance [Await op Done] 1 0 st).
Proof.
  intros H. unfold command, returned, advance. rewrite H. do 2 f_equal. lia.
Qed.

(** One primitive: created, then tagged. *)
Lemma primitive_run layer op st :
  no_faults 2 st = true ->
  (let* entity := create op in
   command (setx (HEntity entity) "$layer" (HLayer layer))) st =
    (Ok tt, advance (tagged layer op (fresh st)) 2 1 st).
Proof.
  intros H. unfold bind.
  rewrite create_run by (apply (no_faults_S 1), H).
  rewrite command_run.
  - by rewrite advance_advance.
  - apply (no_faults_S 0), (no_faults_advance 1 1), H.
Qed.

(** A loop that creates one tagged primitive per element. *)
Lemma for_each_primitives {A} layer (f : A -> Op) (body : A -> M unit) :
  (forall x st, no_faults 2 st = true ->
                body x st = (Ok tt, advance (tagged layer (f x) (fresh st)) 2 1 st)) ->
  forall xs st,
    no_faults (2 * length xs) st = true ->
    for_each xs body st =
      (Ok tt, advance (tagged_all layer (f <$> xs) (fresh st))
                      (2 * length xs) (length xs) st).
Proof.
  intros Hbody. induction xs as [|x xs IH]; intros st H.
  - simpl. unfold ret. by rewrite advance_0.
  - simpl for_each. unfold bind.
    rewrite Hbody by (apply (no_faults_le 2 (2 * length (x :: xs))); [simpl; lia | done]).
    rewrite IH.
    + rewrite advance_advance. simpl fresh.
      replace (fresh st + 1) with (S (fresh st)) by lia.
      f_equal. f_equal; simpl; lia.
    + apply (no_faults_advance _ 2).
      replace (2 + 2 * length xs) with (2 * length (x :: xs)) by (simpl; lia). done.
Qed.

Lemma tagged_all_length layer ops h :
  length (tagged_all layer ops h) = 2 * length ops.
Proof.
  revert h. induction ops as [|op ops IH]; intros h; simpl; [done|].
  rewrite IH. lia.
Qed.

Lemma tagged_all_lookup layer ops : forall h i op,
  ops !! i = Some op ->
  tagged_all layer ops h !! (2 * i) = Some (Await op (Gave (h + i))) /\
  tagged_all layer ops h !! (2 * i + 1) =
    Some (Await (setx (HEntity (h + i)) "$layer" (HLayer layer)) Done).
Proof.
  induction ops as [|op0 ops IH]; intros h i op Hi; [done|].
  destruct i as [|i]; simpl in Hi.
  - injection Hi as ->. simpl. by rewrite Nat.add_0_r.
  - destruct (IH (S h) i op Hi) as [H1 H2].
    replace (2 * S i) with (S (S (2 * i))) by lia.
    replace (h + S i) with (S h + i) by lia.
    simpl. split; [exact H1 | exact H2].
Qed.

Lemma line_op_cases part :
  line_op part =
    match part with
    | [p; q] => addLine (placed p) (placed q)
    | _ => addPolyline3d (map (fun p => placed p) part) None
    end.
Proof. by destruct part as [|p [|q [|r rest]]]. Qed.

Lemma for_each_app {A} (a b : list A) (body : A -> M unit) st :
  for_each (a ++ b) body st = (for_each a body ;; for_each b body) st.
Proof.
  revert st. induction a as [|x a IH]; intros st; simpl; [done|].
  unfold bind in *. destruct (body x st) as [[[]|e] st1]; [apply IH|done].
Qed.

Lemma for_each_concat {A} (xss : list (list A)) (body : A -> M unit) st :
  for_each xss (fun xs => for_each xs body) st = for_each (concat xss) body st.
Proof.
  revert st. induction xss as [|xs xss IH]; intros st; simpl; [done|].
  rewrite for_each_app. unfold bind.
  destruct (for_each xs body st) as [[[]|e] st1]; [apply IH|done].
Qed.

Lemma line_body_run layer (coordinates : list vec) st :
  no_faults 2 st = true ->
  (let* entity :=
     if length coordinates =? 2
     then create (addLine (placed (nth 0 coordinates [])) (placed (nth 1 coordinates [])))
     else create (addPolyline3d (map (fun p => placed p) coordinates) None) in
   command (setx (HEntity entity) "$layer" (HLayer layer))) st =
    (Ok tt, advance (tagged layer (line_op coordinates) (fresh st)) 2 1 st).
Proof.
  intros H. unfold line_op.
  destruct (length coordinates =? 2); by apply primitive_run.
Qed.

(** Every pair of events of a loop over [xs], read off by position. *)
Lemma tagged_all_positions {A} layer (f : A -> Op) (xs : list A) h :
  length (tagged_all layer (map f xs) h) = 2 * length xs /\
  forall i x,
    xs !! i = Some x ->
    tagged_all layer (map f xs) h !! (2 * i) = Some (Await (f x) (Gave (h + i))) /\
    tagged_all layer (map f xs) h !! (2 * i + 1) =
      Some (Await (setx (HEntity (h + i)) "$layer" (HLayer layer)) Done).
Proof.
  split.
  - by rewrite tagged_all_length, length_map.
  - intros i x Hi. apply tagged_all_lookup.
    change (map f xs) with (f <$> xs). by rewrite list_lookup_fmap, Hi.
Qed.

(** C3. A LineString (or a part of a MultiLineString) of exactly two
    coordinates gives one line and no polyline; one of [N <> 2]
    coordinates gives one 3D polyline of [N] vertices and no line.  Each
    part of a MultiLineString gives exactly one primitive, at its own
    position in the run. *)
Theorem featureGeometry_lines layer st :
  (forall p q,
      no_faults 2 st = true ->
      featureGeometry layer (LineString [p; q]) st =
        (Ok tt,
         advance [Await (addLine (placed p) (placed q)) (Gave (fresh st));
                  Await (setx (HEntity (fresh st)) "$layer" (HLayer layer)) Done]
                 2 1 st))
  /\
  (forall coordinates,
      length coordinates <> 2 ->
      no_faults 2 st = true ->
      featureGeometry layer (LineString coordinates) st =
        (Ok tt,
         advance [Await (addPolyline3d (map (fun p => placed p) coordinates) None)
                        (Gave (fresh st));
                  Await (setx (HEntity (fresh st)) "$layer" (HLayer layer)) Done]
                 2 1 st)
      /\ length (map (fun p => placed p) coordinates) = length coordinates)
  /\
  (forall lines,
      no_faults (2 * length lines) st = true ->
      exists evs,
        featureGeometry layer (MultiLineString lines) st =
          (Ok tt, advance evs (2 * length lines) (length lines) st) /\
        length evs = 2 * length lines /\
        forall i part,
          lines !! i = Some part ->
          evs !! (2 * i) =
            Some (Await
                    match part with
                    | [p; q] => addLine (placed p) (placed q)
                    | _ => addPolyline3d (map (fun p => placed p) part) None
                    end
                    (Gave (fresh st + i))) /\
          evs !! (2 * i + 1) =
            Some (Await (setx (HEntity (fresh st + i)) "$layer" (HLayer layer)) Done)).
Proof.
  split; [|split].
  - intros p q H. unfold featureGeometry.
    by rewrite (line_body_run layer [p; q] st H).
  - intros coordinates HN H. unfold featureGeometry.
    rewrite (line_body_run layer coordinates st H). unfold line_op.
    apply Nat.eqb_neq in HN. rewrite HN. by rewrite length_map.
  - intros lines H. unfold featureGeometry.
    rewrite (for_each_primitives layer line_op)
      by (done || intros; by apply line_body_run).
    eexists. split; [reflexivity|].
    destruct (tagged_all_positions layer line_op lines (fresh st)) as [Hlen Hpos].
    split; [exact Hlen|]. intros i part Hi.
    rewrite <- line_op_cases. by apply Hpos.
Qed.

(** C4. A Polygon of [R] rings gives exactly [R] polylines, one per ring
    and in ring order, each created without flags (open) and as a
    polyline (never a mesh); a MultiPolygon gives the same for the rings
    of all its polygons, taken in order. *)
Theorem featureGeometry_polygons layer st :
  (forall rings,
      no_faults (2 * length rings) st = true ->
      exists evs,
        featureGeometry layer (Polygon rings) st =
          (Ok tt, advance evs (2 * length rings) (length rings) st) /\
        length evs = 2 * length rings /\
        forall i ring,
          rings !! i = Some ring ->
          evs !! (2 * i) =
            Some (Await (addPolyline3d (map (fun p => placed p) ring) None)
                        (Gave (fresh st + i))) /\
          evs !! (2 * i + 1) =
            Some (Await (setx (HEntity (fresh st + i)) "$layer" (HLayer layer)) Done))
  /\
  (forall polygons,
      no_faults (2 * length (concat polygons)) st = true ->
      exists evs,
        featureGeometry layer (MultiPolygon polygons) st =
          (Ok tt, advance evs (2 * length (concat polygons))
                          (length (concat polygons)) st) /\
        length evs = 2 * length (concat polygons) /\
        forall i ring,
          concat polygons !! i = Some ring ->
          evs !! (2 * i) =
            Some (Await (addPolyline3d (map (fun p => placed p) ring) None)
                        (Gave (fresh st + i))) /\
          evs !! (2 * i + 1) =
            Some (Await (setx (HEntity (fresh st + i)) "$layer" (HLayer layer)) Done)).
Proof.
  split.
  - intros rings H. unfold featureGeometry.
    rewrite (for_each_primitives layer ring_op)
      by (done || intros; by apply primitive_run).
    eexists. split; [reflexivity|].
    apply (tagged_all_positions layer ring_op).
  - intros polygons H. unfold featureGeometry.
    rewrite for_each_concat.
    rewrite (for_each_primitives layer ring_op)
      by (done || intros; by apply primitive_run).
    eexists. split; [reflexivity|].
    apply (tagged_all_positions layer ring_op).
Qed.

(** C5. A Point gives exactly one circle of radius 0.005 whose centre is
    the coordinate tuple made 3D (two components get a zero Z appended)
    and multiplied, component by component, by the scale factor; every
    point of a MultiPoint gives one such circle. *)
Theorem featureGeometry_points layer st :
  (forall coordinates,
      no_faults 2 st = true ->
      featureGeometry layer (Point coordinates) st =
        (Ok tt,
         advance [Await (addCircle (scaleCoordinates (coordinatesToVec3 coordinates))
                                   0.005%float)
                        (Gave (fresh st));
                  Await (setx (HEntity (fresh st)) "$layer" (HLayer layer)) Done]
                 2 1 st))
  /\
  (forall points,
      no_faults (2 * length points) st = true ->
      exists evs,
        featureGeometry layer (MultiPoint points) st =
          (Ok tt, advance evs (2 * length points) (length points) st) /\
        length evs = 2 * length points /\
        forall i coordinates,
          points !! i = Some coordinates ->
          evs !! (2 * i) =
            Some (Await (addCircle (scaleCoordinates (coordinatesToVec3 coordinates))
                                   0.005%float)
                        (Gave (fresh st + i))) /\
          evs !! (2 * i + 1) =
            Some (Await (setx (HEntity (fresh st + i)) "$layer" (HLayer layer)) Done))
  /\
  (forall x y, coordinatesToVec3 [x; y] = [x; y; 0%float]) /\
  (forall x y z, coordinatesToVec3 [x; y; z] = [x; y; z]) /\
  (forall x y z,
      scaleCoordinates [x; y; z] = [(x * SCALE)%float; (y * SCALE)%float; (z * SCALE)%float]).
Proof.
  split; [|split; [|by repeat split]].
  - intros coordinates H. unfold featureGeometry. by rewrite primitive_run.
  - intros points H. unfold featureGeometry.
    rewrite (for_each_primitives layer point_op)
      by (done || intros; by apply primitive_run).
    eexists. split; [reflexivity|].
    apply (tagged_all_positions layer point_op).
Qed.

(** * Property records *)

Lemma featurePropValue_run prop st :
  featurePropValue prop st = (Ok (typed_field prop), emits (unsupported prop) st).
Proof.
  destruct prop; simpl; unfold ret, bind, console_error, log, emit;
    by rewrite ?emits_nil.
Qed.

Lemma featureProps_loop_run rawProps : forall props st,
  featureProps_loop props rawProps st =
    (Ok (fold_left assign_typed rawProps props),
     emits (flat_map (fun kv => unsupported kv.2) rawProps) st).
Proof.
  induction rawProps as [|[name prop] rest IH]; intros props st; simpl.
  - unfold ret. by rewrite emits_nil.
  - unfold bind. rewrite featurePropValue_run, IH. by rewrite emits_emits.
Qed.





(** [Number.isInteger] on sample values. *)
Example Number_isInteger_samples :
  Number_isInteger 42%float = true /\
  Number_isInteger (-3)%float = true /\
  Number_isInteger 0%float = true /\
  Number_isInteger 0.5%float = false /\
  Number_isInteger 1e300%float = true /\
  Number_isInteger nan = false /\
  Number_isInteger infinity = false.
Proof. by vm_compute. Qed.

(** * Runs with failures *)

Lemma obeys_bind {A B} (QA : Outcome A -> list Event -> Prop)
      (QB : Outcome B -> list Event -> Prop) (p : M A) (k : A -> M B) :
  (forall a evs1 r evs2, QA (Ok a) evs1 -> QB r evs2 -> QB r (evs1 ++ evs2)) ->
  (forall e evs, QA (Throw e) evs -> QB (Throw e) evs) ->
  obeys QA p -> (forall a, obeys QB (k a)) -> obeys QB (bind p k).
Proof.
  intros Hseq Hthrow Hp Hk st. unfold bind.
  destruct (Hp st) as (evs1 & Ht1 & HQ1).
  destruct (p st) as [[a|e] st1]; simpl in *.
  - destruct (Hk a st1) as (evs2 & Ht2 & HQ2).
    exists (evs1 ++ evs2). split.
    + by rewrite Ht2, Ht1, app_assoc.
    + by apply (Hseq a).
  - exists evs1. auto.
Qed.

Lemma obeys_for_each {A} (Q : Outcome unit -> list Event -> Prop)
      (xs : list A) (body : A -> M unit) :
  Q (Ok tt) [] ->
  (forall a evs1 r evs2, Q (Ok a) evs1 -> Q r evs2 -> Q r (evs1 ++ evs2)) ->
  (forall x, obeys Q (body x)) -> obeys Q (for_each xs body).
Proof.
  intros Hnil Hseq Hbody. induction xs as [|x xs IH]; simpl.
  - intros st. exists []. simpl. by rewrite app_nil_r.
  - apply (obeys_bind Q Q); auto.
Qed.

Lemma segment_seq {A B} (a : A) evs1 (r : Outcome B) evs2 :
  segment (Ok a) evs1 -> segment r evs2 -> segment r (evs1 ++ evs2).
Proof.
  intros H1 H2. destruct r as [b|e]; simpl in *.
  - by apply Forall_app.
  - destruct H2 as (evs0 & op & -> & H0 & ->).
    exists (evs1 ++ evs0), op. rewrite app_assoc. repeat split.
    by apply Forall_app.
Qed.

Lemma clean_bind {A B} (p : M A) (k : A -> M B) :
  clean p -> (forall a, clean (k a)) -> clean (bind p k).
Proof.
  apply obeys_bind; [apply @segment_seq | by intros e evs H].
Qed.

Lemma clean_for_each {A} (xs : list A) (body : A -> M unit) :
  (forall x, clean (body x)) -> clean (for_each xs body).
Proof.
  apply obeys_for_each; [by constructor | apply @segment_seq].
Qed.

Lemma clean_ret {A} (a : A) : clean (ret a).
Proof. intros st. exists []. simpl. rewrite app_nil_r. by split. Qed.

Lemma clean_log e : work e = true -> clean (log e).
Proof. intros H st. exists [e]. simpl. split; [done|]. by constructor. Qed.

Lemma clean_console_error msg : clean (console_error msg).
Proof. by apply clean_log. Qed.

Lemma clean_create op : session_op op = false -> clean (create op).
Proof.
  intros H st. unfold create. destruct (throws_next st); simpl.
  - exists [Await op Threw]. split; [done|]. by exists [], op.
  - exists [Await op (Gave (fresh st))]. split; [done|].
    constructor; [by destruct op|constructor].
Qed.

Lemma clean_command op : session_op op = false -> clean (command op).
Proof.
  intros H st. unfold command. destruct (throws_next st); simpl.
  - exists [Await op Threw]. split; [done|]. by exists [], op.
  - exists [Await op Done]. split; [done|].
    constructor; [by destruct op|constructor].
Qed.

Lemma clean_answer {A} op (a : option A) : session_op op = false -> clean (answer op a).
Proof.
  intros H st. unfold answer. destruct a; simpl.
  - exists [Await op Done]. split; [done|].
    constructor; [by destruct op|constructor].
  - exists [Await op Threw]. split; [done|]. by exists [], op.
Qed.

Create HintDb clean.
#[local] Hint Resolve clean_ret clean_console_error : clean.
#[local] Hint Extern 1 (clean (log _)) => apply clean_log; reflexivity : clean.
#[local] Hint Extern 1 (clean (create _)) => apply clean_create; reflexivity : clean.
#[local] Hint Extern 1 (clean (command _)) => apply clean_command; reflexivity : clean.
#[local] Hint Extern 1 (clean (answer _ _)) => apply clean_answer; reflexivity : clean.

(** Break a program into its calls, leaving the calls to the hints. *)
Ltac clean_steps :=
  repeat first
    [ solve [auto with clean]
    | apply clean_bind; [|intros]
    | apply clean_for_each; intros
    | match goal with
      | |- clean (if ?c then _ else _) => destruct c
      | |- clean (match ?x with _ => _ end) => destruct x
      end ];
  auto with clean.

Lemma clean_featureGeometry layer rawGeometry :
  clean (featureGeometry layer rawGeometry).
Proof. destruct rawGeometry; unfold featureGeometry; clean_steps. Qed.

#[local] Hint Resolve clean_featureGeometry : clean.

Lemma clean_featureProps rawProps : clean (featureProps rawProps).
Proof.
  intros st. unfold featureProps. rewrite featureProps_loop_run. simpl.
  eexists. split; [reflexivity|].
  apply Forall_forall. intros e He.
  apply list_elem_of_In, in_flat_map in He as ([k prop] & _ & He).
  destruct prop; simpl in He; try done. by destruct He as [<-|[]].
Qed.

#[local] Hint Resolve clean_featureProps : clean.

Lemma clean_loadFeature feature : clean (loadFeature feature).
Proof. unfold loadFeature. clean_steps. Qed.

#[local] Hint Resolve clean_loadFeature : clean.

(** Looking a name up and writing on an inherited object issue nothing. *)
Lemma obeys_groups_get (Q : Outcome (option Found) -> list Event -> Prop) groups name :
  (forall found, Q (Ok found) []) -> obeys Q (groups_get groups name).
Proof. intros H st. exists []. simpl. by rewrite app_nil_r. Qed.

Lemma obeys_inherited_set (Q : Outcome unit -> list Event -> Prop) name extension :
  Q (Ok tt) [] -> obeys Q (inherited_set name extension).
Proof.
  intros H st. exists []. unfold inherited_set.
  destruct (String.eqb name "__proto__"); simpl; by rewrite app_nil_r.
Qed.

Lemma clean_groups_get groups name : clean (groups_get groups name).
Proof. apply obeys_groups_get. intros found. constructor. Qed.

Lemma clean_inherited_set name extension : clean (inherited_set name extension).
Proof. apply obeys_inherited_set. constructor. Qed.

#[local] Hint Resolve clean_groups_get clean_inherited_set : clean.

Lemma clean_addToGroups groups item : clean (addToGroups groups item).
Proof. unfold addToGroups. clean_steps. Qed.

Lemma clean_extractGroups_children items :
  Forall (fun item => forall groups, clean (extractGroups_item groups item)) items ->
  forall groups, clean (extractGroups groups items).
Proof.
  induction 1 as [|item rest Hitem _ IH]; intros groups; simpl.
  - apply clean_ret.
  - apply clean_bind; auto.
Qed.

Lemma clean_extractGroups_item item :
  forall groups, clean (extractGroups_item groups item).
Proof.
  induction item as [m t g pf IH] using WorkspaceItem_tree_ind. intros groups.
  change (extractGroups_item groups (Item m t g pf)) with
    (if String.eqb m "application/vnd.folder" then
       match pf with
       | Some children =>
           log (Await (item_propfind t) Done) ;; extractGroups groups children
       | None => answer (item_propfind t) None
       end
     else if String.eqb m "application/octet-stream" then
       addToGroups groups (Item m t g pf)
     else console_error ("Unsupported MIME type " +:+ m) ;; ret groups).
  destruct (String.eqb m "application/vnd.folder").
  - destruct pf as [cs|]; [|auto with clean].
    apply clean_bind; [auto with clean|intros _].
    by apply clean_extractGroups_children.
  - destruct (String.eqb m "application/octet-stream").
    + apply clean_addToGroups.
    + clean_steps.
Qed.

Lemma clean_extractGroups groups items : clean (extractGroups groups items).
Proof.
  apply clean_extractGroups_children, Forall_forall.
  intros item _. apply clean_extractGroups_item.
Qed.

Section CleanImporter.

Variable shp : ShapeGroup -> option GeoJSON.

Lemma clean_loadShapes_group name group : clean (loadShapes_group shp name group).
Proof.
  unfold loadShapes_group. clean_steps.
Qed.

Lemma clean_loadShapes groups : clean (loadShapes shp groups).
Proof.
  unfold loadShapes. apply clean_for_each. intros [name group].
  apply clean_loadShapes_group.
Qed.

End CleanImporter.

(** * Tagging of primitives *)

Lemma tag_follows_app layer h a b :
  tag_follows layer h a = true -> tag_follows layer h (a ++ b) = true.
Proof. by destruct a. Qed.

Lemma tagged_at_once_app layer evs1 evs2 :
  tagged_at_once layer evs1 = true -> tagged_at_once layer evs2 = true ->
  tagged_at_once layer (evs1 ++ evs2) = true.
Proof.
  intros H1 H2. induction evs1 as [|e rest IH]; simpl in *; [done|].
  apply andb_prop in H1 as [He Hrest]. rewrite (IH Hrest), andb_true_r.
  destruct e as [op res| | | | | | | | |]; try done.
  destruct res as [h| |]; try done.
  apply andb_prop in He as [-> He]. simpl. by apply tag_follows_app.
Qed.

Lemma tag_follows_inv layer h rest :
  tag_follows layer h rest = true ->
  exists res tail_,
    rest = Await (setx (HEntity h) "$layer" (HLayer layer)) res :: tail_ /\
    (res = Done \/ res = Threw).
Proof.
  destruct rest as [|e tail_]; [done|].
  destruct e as [op res| | | | | | | | |]; try done.
  destruct op as [| | | | | | |target key value| |]; try done.
  destruct target as [|h']; try done. destruct value as [l|]; try done.
  destruct res as [h0| |]; simpl; try done.
  - intros H. apply andb_prop in H as [H H3]. apply andb_prop in H as [H1 H2].
    apply Nat.eqb_eq in H1, H3. apply String.eqb_eq in H2. subst. eauto.
  - intros H. apply andb_prop in H as [H H3]. apply andb_prop in H as [H1 H2].
    apply Nat.eqb_eq in H1, H3. apply String.eqb_eq in H2. subst. eauto.
Qed.

Lemma tagged_at_once_lookup layer evs :
  tagged_at_once layer evs = true ->
  forall i op h,
    evs !! i = Some (Await op (Gave h)) ->
    is_primitive op = true /\
    exists res,
      evs !! (S i) = Some (Await (setx (HEntity h) "$layer" (HLayer layer)) res) /\
      (res = Done \/ res = Threw).
Proof.
  induction evs as [|e rest IH]; intros H i op h Hi; [done|].
  simpl in H. apply andb_prop in H as [He Hrest].
  destruct i as [|i]; simpl in Hi.
  - injection Hi as ->. apply andb_prop in He as [Hp Hf]. split; [done|].
    apply tag_follows_inv in Hf as (res & tail_ & -> & Hres). by exists res.
  - by apply IH.
Qed.

Lemma tags_bind layer {A B} (p : M A) (k : A -> M B) :
  tags layer p -> (forall a, tags layer (k a)) -> tags layer (bind p k).
Proof.
  apply obeys_bind; [|done]. intros _ evs1 _ evs2. apply tagged_at_once_app.
Qed.

Lemma tags_for_each layer {A} (xs : list A) (body : A -> M unit) :
  (forall x, tags layer (body x)) -> tags layer (for_each xs body).
Proof.
  apply obeys_for_each; [done|]. intros _ evs1 _ evs2. apply tagged_at_once_app.
Qed.

Lemma tags_primitive layer op :
  is_primitive op = true ->
  tags layer (let* entity := create op in
              command (setx (HEntity entity) "$layer" (HLayer layer))).
Proof.
  intros Hop st. unfold bind, create, command.
  destruct (throws_next st); simpl.
  - by exists [Await op Threw].
  - destruct (throws_next _); simpl.
    + exists [Await op (Gave (fresh st));
              Await (setx (HEntity (fresh st)) "$layer" (HLayer layer)) Threw].
      split; [by rewrite <- app_assoc|].
      simpl. by rewrite Hop, !Nat.eqb_refl.
    + exists [Await op (Gave (fresh st));
              Await (setx (HEntity (fresh st)) "$layer" (HLayer layer)) Done].
      split; [by rewrite <- app_assoc|].
      simpl. by rewrite Hop, !Nat.eqb_refl.
Qed.

Lemma tags_featureGeometry layer rawGeometry :
  tags layer (featureGeometry layer rawGeometry).
Proof.
  destruct rawGeometry; unfold featureGeometry;
    repeat (apply tags_for_each; intros);
    try (by apply tags_primitive).
  - destruct (length coordinates =? 2); by apply tags_primitive.
  - destruct (length x =? 2); by apply tags_primitive.
  - intros st. by exists [ConsoleError ("Unsupported geometry type " +:+ type)].
Qed.

Lemma obeys_and {A} (Q1 Q2 : Outcome A -> list Event -> Prop) (p : M A) :
  obeys Q1 p -> obeys Q2 p -> obeys (fun r evs => Q1 r evs /\ Q2 r evs) p.
Proof.
  intros H1 H2 st. destruct (H1 st) as (evs & Ht & HQ1).
  destruct (H2 st) as (evs' & Ht' & HQ2).
  rewrite Ht in Ht'. apply app_inv_head in Ht'. subst evs'. by exists evs.
Qed.

(** In a segment, a call that threw is the last event. *)
Lemma segment_failure_last {A} (r : Outcome A) evs i op :
  segment r evs -> evs !! i = Some (Await op Threw) ->
  S i = length evs /\ r = Throw (Failure op).
Proof.
  intros Hseg Hi. destruct r as [a|e]; simpl in Hseg.
  - rewrite Forall_forall in Hseg.
    assert (work (Await op Threw) = true) as Hw
        by (apply Hseg; by eapply list_elem_of_lookup_2).
    by destruct op.
  - destruct Hseg as (evs0 & op0 & -> & H0 & ->).
    destruct (decide (i < length evs0)) as [Hlt|Hge].
    + rewrite lookup_app_l in Hi by done. rewrite Forall_forall in H0.
      assert (work (Await op Threw) = true) as Hw
          by (apply H0; by eapply list_elem_of_lookup_2).
      by destruct op.
    + rewrite lookup_app_r in Hi by lia.
      destruct (i - length evs0) as [|n] eqn:E; simpl in Hi; [|done].
      injection Hi as ->. rewrite length_app. simpl. split; [lia|done].
Qed.

(** C7. In the run of [featureGeometry] for a feature, with or without a
    failure, every object the editor hands out is a circle, a line or a
    polyline, and the very next operation is the call that sets its
    [$layer] field to the layer of the feature, hence before any other
    primitive is created.  That call returns, unless it is the failure
    that ends the run. *)
Theorem featureGeometry_tags_at_once layer rawGeometry st :
  exists evs,
    trace (featureGeometry layer rawGeometry st).2 = trace st ++ evs /\
    forall i op h,
      evs !! i = Some (Await op (Gave h)) ->
      is_primitive op = true /\
      exists res,
        evs !! (S i) = Some (Await (setx (HEntity h) "$layer" (HLayer layer)) res) /\
        (res = Done \/
         res = Threw /\ S (S i) = length evs /\
         (featureGeometry layer rawGeometry st).1 =
           Throw (Failure (setx (HEntity h) "$layer" (HLayer layer)))).
Proof.
  destruct (obeys_and _ _ _ (clean_featureGeometry layer rawGeometry)
              (tags_featureGeometry layer rawGeometry) st)
    as (evs & Ht & Hseg & Htag).
  exists evs. split; [exact Ht|]. intros i op h Hi.
  destruct (tagged_at_once_lookup layer evs Htag i op h Hi)
    as (Hp & res & Hnext & [->| ->]).
  - split; [done|]. exists Done. auto.
  - split; [done|]. exists Threw. split; [done|]. right.
    destruct (segment_failure_last _ evs (S i) _ Hseg Hnext) as [Hlen Hr]. auto.
Qed.

(** * Geometry Mapper: a group the parser does not return as a collection *)

Section Groups.

Variable shp : ShapeGroup -> option GeoJSON.

(** C2. When the parser returns a value whose type is not
    "FeatureCollection", the group is skipped: the run consists of the
    parser call and one diagnostic, no host call is made, so no layer and
    no primitive is created for the group. *)
Theorem loadShapes_group_skips_unsupported name group geojson st :
  shp group = Some geojson ->
  geojson_type geojson <> "FeatureCollection" ->
  loadShapes_group shp name group st =
    (Ok tt,
     emits [Await (shp_parse group) Done;
            ConsoleError ("Unsupported GeoJSON type " +:+ geojson_type geojson)] st).
Proof.
  intros Hparse Htype. unfold loadShapes_group, bind, answer. rewrite Hparse.
  apply String.eqb_neq in Htype. rewrite Htype.
  unfold console_error, log, emit. by rewrite emits_emits.
Qed.

End Groups.

(** * The import operation *)

Lemma work_calm e : work e = true -> calm e = true.
Proof. destruct e as [op res| | | | | | | | |]; try done. Qed.

Lemma work_all_calm evs : Forall (fun e => work e = true) evs -> all_calm evs.
Proof. intros H. eapply Forall_impl; [exact H|]. apply work_calm. Qed.

Lemma calm_no_failure evs : all_calm evs -> no_failure evs.
Proof.
  intros H. eapply Forall_impl; [exact H|]. clear H.
  intros e H. destruct e as [op res| | | | | | | | |]; try done.
  by destruct op, res.
Qed.

Lemma all_calm_not_in e evs : all_calm evs -> calm e = false -> e ∉ evs.
Proof.
  intros Hall He Hin. unfold all_calm in Hall. rewrite Forall_forall in Hall.
  specialize (Hall e Hin). congruence.
Qed.

(** A list splits in one way only around an element that occurs once. *)
Lemma split_unique {T} (x : T) a b pre post :
  x ∉ a -> x ∉ b -> a ++ x :: b = pre ++ x :: post -> pre = a /\ post = b.
Proof.
  revert pre. induction a as [|y a IH]; intros pre Ha Hb Heq.
  - destruct pre as [|z pre]; simpl in Heq.
    + by injection Heq as ->.
    + injection Heq as <- ->. destruct Hb.
      apply elem_of_app. right. left.
  - apply not_elem_of_cons in Ha as [Hxy Ha].
    destruct pre as [|z pre]; simpl in Heq.
    + by injection Heq as <-.
    + injection Heq as <- Heq. destruct (IH pre Ha Hb Heq) as [-> ->]. done.
Qed.

(** A list splits in one way only at its first failure. *)
Lemma first_failure_unique a x b pre y post :
  no_failure a -> no_failure pre -> failure x = true -> failure y = true ->
  a ++ x :: b = pre ++ y :: post -> pre = a /\ y = x /\ post = b.
Proof.
  revert pre. induction a as [|z a IH]; intros pre Ha Hpre Hx Hy Heq.
  - destruct pre as [|z pre]; simpl in Heq.
    + by injection Heq as -> ->.
    + injection Heq as <- _. apply Forall_cons in Hpre as [Hz _]. congruence.
  - apply Forall_cons in Ha as [Hz Ha].
    destruct pre as [|z' pre]; simpl in Heq.
    + injection Heq as <- _. congruence.
    + injection Heq as <- Heq. apply Forall_cons in Hpre as [_ Hpre].
      destruct (IH pre Ha Hpre Hx Hy Heq) as (-> & -> & ->). done.
Qed.

Section ImportRun.

Variable shp : ShapeGroup -> option GeoJSON.
Variable tr : string -> list string -> string.

Lemma session_run groups st :
  exists body tail_,
    trace (try_finally (loadShapes shp groups) (command endEdit) st).2
      = trace st ++ body ++ tail_ /\
    all_calm body /\
    session_end (try_finally (loadShapes shp groups) (command endEdit) st).1 tail_.
Proof.
  destruct (clean_loadShapes shp groups st) as (evs & Ht & Hseg).
  unfold try_finally, command.
  destruct (loadShapes shp groups st) as [[[]|e] st1]; simpl in Ht, Hseg.
  - exists evs. destruct (throws_next st1); simpl; eexists;
      (split; [by rewrite Ht, <- app_assoc|]);
      (split; [by apply work_all_calm|]); constructor.
  - destruct Hseg as (evs0 & op & -> & H0 & ->).
    exists evs0. destruct (throws_next st1); simpl;
      [exists [Await op Threw; Await endEdit Threw]
      |exists [Await op Threw; Await endEdit Done]];
      (split; [by rewrite Ht, <- !app_assoc|]);
      (split; [by apply work_all_calm|]); constructor.
Qed.

Lemma import_run workspace drawing st :
  exists st' evs,
    import shp tr workspace drawing st = (Ok tt, st') /\
    trace st' = trace st ++ evs /\
    import_shape evs.
Proof.
  unfold import, try_finally, try_catch, bind, log, emit. cbn beta iota.
  rewrite !emits_emits. cbn [app].
  destruct (layouts drawing ≫= model) as [layout|]; cycle 1.
  { unfold ret. eexists _, _. split; [reflexivity|]. split.
    - simpl. rewrite <- !app_assoc. reflexivity.
    - apply (shape_no_session [_; _; _; _]). by repeat constructor. }
  rewrite !emits_emits. cbn [app]. unfold answer.
  destruct (propfind (root workspace)) as [items|]; cycle 1.
  { eexists _, _. split; [reflexivity|]. split.
    - simpl. rewrite <- !app_assoc. reflexivity.
    - apply (shape_aborted [_; _; _; _; _]). by repeat constructor. }
  unfold emit. rewrite !emits_emits. cbn [app].
  match goal with
  | |- context [extractGroups [] items ?s] =>
      destruct (clean_extractGroups [] items s) as (io & Hio & Hseg);
      destruct (extractGroups [] items s) as [[groups|e] st1]
  end; simpl in Hio, Hseg; cycle 1.
  { destruct Hseg as (io0 & op & -> & Hio0 & ->).
    eexists _, _. split; [reflexivity|]. split.
    - simpl. rewrite Hio. rewrite <- !app_assoc. reflexivity.
    - apply (shape_aborted ([_; _; _; _; _; _] ++ io0) op). apply Forall_app. split.
      + by repeat constructor.
      + by apply work_all_calm. }
  unfold command at 1. destruct (throws_next st1) eqn:Hbegin.
  { eexists _, _. split; [reflexivity|]. split.
    - simpl. rewrite Hio. rewrite <- !app_assoc. reflexivity.
    - apply (shape_aborted ([_; _; _; _; _; _] ++ io) beginEdit). apply Forall_app. split.
      + by repeat constructor.
      + by apply work_all_calm. }
  destruct (session_run groups (returned beginEdit Done st1))
    as (body & tail_ & Ht & Hbody & Hend).
  fold (try_finally (loadShapes shp groups) (command endEdit)
          (returned beginEdit Done st1)).
  destruct (try_finally (loadShapes shp groups) (command endEdit) _) as [r st2].
  simpl in Ht, Hend.
  assert (Hpre : all_calm
            ([BeginProgress; CreateOutputChannel "SHP";
              OutputsInfo (tr "Импорт shape из {0}"
                              [default (title (root workspace)) (origin workspace)]);
              ProgressIndeterminate true; ProgressDetails (tr "Чтение файла" []);
              Await (item_propfind (title (root workspace))) Done] ++ io)).
  { apply Forall_app. split; [by repeat constructor | by apply work_all_calm]. }
  pose proof (shape_session _ _ _ _ Hpre Hbody Hend) as Hshape.
  destruct r as [[]|e]; eexists _, _; (split; [reflexivity|]);
    (split; [|exact Hshape]);
    simpl; rewrite Ht; simpl; rewrite Hio; by rewrite <- !app_assoc.
Qed.

End ImportRun.

(** ** What the shape of a run implies *)

Ltac list_assoc := simpl; repeat (rewrite <- app_assoc; simpl); try reflexivity.

Lemma session_end_events r tail_ e :
  session_end r tail_ -> e ∈ tail_ ++ report r ->
  (exists op, e = Await op Threw) \/ (exists res, e = Await endEdit res)
  \/ (exists err, e = OutputsError err).
Proof.
  intros Hend Hin. destruct Hend; simpl in Hin;
    repeat (apply elem_of_cons in Hin as [->|Hin]; [by eauto|]);
    by apply elem_of_nil in Hin.
Qed.

Lemma session_end_not_in r tail_ e :
  session_end r tail_ ->
  failure e = false -> (forall res, e <> Await endEdit res) ->
  (forall err, e <> OutputsError err) ->
  e ∉ tail_ ++ report r.
Proof.
  intros Hend Hf He Ho Hin.
  destruct (session_end_events _ _ _ Hend Hin) as [[op ->]|[[res ->]|[err ->]]].
  - done.
  - by destruct (He res).
  - by destruct (Ho err).
Qed.

Lemma no_failure_split evs pre x post :
  no_failure evs -> evs = pre ++ x :: post -> failure x = false.
Proof.
  intros Hall ->. apply Forall_app in Hall as [_ Hall].
  by apply Forall_cons in Hall as [Hx _].
Qed.

Lemma shape_progress_ended evs : import_shape evs -> progress_ended evs.
Proof.
  intros [pre Hpre | pre op Hpre | pre body r tail_ Hpre Hbody Hend].
  - exists pre. split; [done|]. by apply all_calm_not_in.
  - exists (pre ++ [Await op Threw; OutputsError (Failure op)]).
    split; [list_assoc|].
    rewrite elem_of_app, !elem_of_cons, elem_of_nil.
    intros [H|[H|[H|[]]]]; try done. by apply (all_calm_not_in _ _ Hpre) in H.
  - exists (pre ++ Await beginEdit Done :: body ++ tail_ ++ report r).
    split; [list_assoc|].
    rewrite elem_of_app, elem_of_cons, elem_of_app.
    intros [H|[H|[H|H]]]; try done.
    + by apply (all_calm_not_in _ _ Hpre) in H.
    + by apply (all_calm_not_in _ _ Hbody) in H.
    + by apply (session_end_not_in _ _ _ Hend) in H.
Qed.

Lemma shape_session_released evs : import_shape evs -> session_released evs.
Proof.
  intros [pre Hpre | pre op Hpre | pre body r tail_ Hpre Hbody Hend] pre' post Heq.
  - assert (Await beginEdit Done ∈ pre ++ [EndProgress]) as Hin
        by (rewrite Heq, elem_of_app; right; left).
    rewrite elem_of_app, !elem_of_cons, elem_of_nil in Hin.
    destruct Hin as [H|[H|[]]]; try done. by apply (all_calm_not_in _ _ Hpre) in H.
  - assert (Await beginEdit Done
              ∈ pre ++ [Await op Threw; OutputsError (Failure op); EndProgress]) as Hin
        by (rewrite Heq, elem_of_app; right; left).
    rewrite elem_of_app, !elem_of_cons, elem_of_nil in Hin.
    destruct Hin as [H|[H|[H|[H|[]]]]]; try done.
    by apply (all_calm_not_in _ _ Hpre) in H.
  - apply split_unique in Heq as [_ ->].
    + destruct Hend; simpl.
      * by exists body, Done, [EndProgress].
      * by exists body, Threw, [OutputsError (Failure endEdit); EndProgress].
      * exists (body ++ [Await op Threw]), Done, [OutputsError (Failure op); EndProgress].
        list_assoc.
      * exists (body ++ [Await op Threw]), Threw,
          [OutputsError (Failure endEdit); EndProgress].
        list_assoc.
    + by apply all_calm_not_in.
    + rewrite elem_of_app, app_assoc, elem_of_app, elem_of_cons, elem_of_nil.
      intros [H|[H|[H|[]]]]; try done.
      * by apply (all_calm_not_in _ _ Hbody) in H.
      * by apply (session_end_not_in _ _ _ Hend) in H.
Qed.

Lemma app_cons_assoc {T} (pre : list T) x body rest :
  pre ++ x :: body ++ rest = (pre ++ x :: body) ++ rest.
Proof. by rewrite <- app_assoc. Qed.

Lemma shape_failure_handled evs : import_shape evs -> failure_handled evs.
Proof.
  intros [pre Hpre | pre op0 Hpre | pre body r tail_ Hpre Hbody Hend]; split.
  - intros _ e. rewrite elem_of_app, elem_of_cons, elem_of_nil.
    intros [H|[H|[]]]; try done. by apply (all_calm_not_in _ _ Hpre) in H.
  - intros pre' op post Heq Hnf.
    assert (no_failure (pre ++ [EndProgress])) as Hall.
    { apply Forall_app. split; [by apply calm_no_failure | by repeat constructor]. }
    by pose proof (no_failure_split _ _ _ _ Hall Heq).
  - intros Hall. assert (failure (Await op0 Threw) = false); [|done].
    by eapply no_failure_split.
  - intros pre' op post Heq Hnf.
    apply first_failure_unique in Heq as (-> & [= ->] & ->);
      [by left | by apply calm_no_failure | done..].
  - intros Hall e. destruct Hend; simpl in *.
    + rewrite elem_of_app, !elem_of_cons, elem_of_app, !elem_of_cons, elem_of_nil.
      intros [H|[H|[H|[H|[H|[]]]]]]; try done.
      * by apply (all_calm_not_in _ _ Hpre) in H.
      * by apply (all_calm_not_in _ _ Hbody) in H.
    + assert (failure (Await endEdit Threw) = false); [|done].
      eapply (no_failure_split _ (pre ++ Await beginEdit Done :: body)); [done|].
      list_assoc.
    + assert (failure (Await op Threw) = false); [|done].
      eapply (no_failure_split _ (pre ++ Await beginEdit Done :: body)); [done|].
      list_assoc.
    + assert (failure (Await op Threw) = false); [|done].
      eapply (no_failure_split _ (pre ++ Await beginEdit Done :: body)); [done|].
      list_assoc.
  - intros pre' op post Heq Hnf.
    assert (no_failure (pre ++ Await beginEdit Done :: body)) as Hcalm.
    { apply Forall_app. split; [by apply calm_no_failure|].
      constructor; [done | by apply calm_no_failure]. }
    destruct Hend; simpl in Heq.
    + assert (failure (Await op Threw) = false); [|done].
      eapply no_failure_split; [|exact Heq].
      rewrite app_cons_assoc.
      apply Forall_app. split; [done | by repeat constructor].
    + rewrite app_cons_assoc in Heq.
      apply first_failure_unique in Heq as (-> & [= ->] & ->); auto.
    + rewrite app_cons_assoc in Heq.
      apply first_failure_unique in Heq as (-> & [= ->] & ->); auto.
    + rewrite app_cons_assoc in Heq.
      apply first_failure_unique in Heq as (-> & [= ->] & ->); auto.
Qed.

Section ImportClaims.

Variable shp : ShapeGroup -> option GeoJSON.
Variable tr : string -> list string -> string.

(** C8.  No exception leaves [import].  Its run ends the
    progress handle, once and last; wherever [beginEdit] returned, a call
    of [endEdit] follows, on the normal and on the failing path; a run
    without a failure reports no error, and after the first failure
    (listing, fetch, parser or host call) the run does nothing but end
    the edit session when one is open, report exactly one error and end
    the progress, what was created before staying in place.  The error
    reported is that failure, unless [endEdit] throws as well: then the
    failure of [endEdit] is the one reported. *)
Theorem import_releases_and_reports workspace drawing st :
  (import shp tr workspace drawing st).1 = Ok tt /\
  exists evs,
    trace (import shp tr workspace drawing st).2 = trace st ++ evs /\
    progress_ended evs /\ session_released evs /\ failure_handled evs.
Proof.
  destruct (import_run shp tr workspace drawing st) as (st' & evs & -> & Ht & Hshape).
  split; [done|]. exists evs. split; [done|].
  auto using shape_progress_ended, shape_session_released, shape_failure_handled.
Qed.

End ImportClaims.

(** * The importer on a sample workspace *)

(** The scenario of the specification: one group, one Point feature. *)
Example import_scenario :
  import sample_parser sample_tr sample_workspace sample_drawing idle =
    (Ok tt,
     {| trace :=
          [BeginProgress; CreateOutputChannel "SHP";
           OutputsInfo "Импорт shape из {0}"; ProgressIndeterminate true;
           ProgressDetails "Чтение файла";
           Await (item_propfind "parcels") Done;
           Await (item_get "parcels.shp") Done;
           Await (item_get "parcels.dbf") Done;
           Await beginEdit Done;
           Await (shp_parse sample_group) Done;
           Await (layers_add [("$type", DTypeRef "SmdxElement");
                              ("name", DStr "parcels")]) (Gave 0);
           SetDisabled 0 true;
           Await (layers_add
                    [("area", DObj [("$value", DNum 42%float); ("$type", DStr "int");
                                    ("$units", DUndefined)]);
                     ("$type", DTypeRef "SmdxElement"); ("name", DStr "")]) (Gave 1);
           SetDisabled 1 true;
           Await (addCircle [10%float; 20%float; 0%float] 0.005%float) (Gave 2);
           Await (setx (HEntity 2) "$layer" (HLayer 1)) Done;
           Await (setx (HLayer 1) "$layer" (HLayer 0)) Done;
           Await endEdit Done; EndProgress];
        faults := []; fresh := 3; gained := [] |}).
Proof. reflexivity. Qed.

(** The same import on a host that goes down after [beginEdit]. *)
Example import_host_down :
  trace (import sample_parser sample_tr sample_workspace sample_drawing host_down).2 =
    [BeginProgress; CreateOutputChannel "SHP";
     OutputsInfo "Импорт shape из {0}"; ProgressIndeterminate true;
     ProgressDetails "Чтение файла";
     Await (item_propfind "parcels") Done;
     Await (item_get "parcels.shp") Done;
     Await (item_get "parcels.dbf") Done;
     Await beginEdit Done;
     Await (shp_parse sample_group) Done;
     Await (layers_add [("$type", DTypeRef "SmdxElement"); ("name", DStr "parcels")]) Threw;
     Await endEdit Threw;
     OutputsError (Failure endEdit);
     EndProgress].
Proof. reflexivity. Qed.

(** C8 does not hold for every failure: when the creation of the group
    layer throws and [endEdit] throws after it, the error reported is the
    one of [endEdit]; the failure that aborted the import is reported
    nowhere. *)
Lemma import_failure_not_reported :
  ~ every_failure_reported
      (trace (import sample_parser sample_tr sample_workspace sample_drawing
                host_down).2).
Proof.
  rewrite import_host_down. intros H.
  specialize (H (layers_add [("$type", DTypeRef "SmdxElement"); ("name", DStr "parcels")])).
  assert (Hin : OutputsError
                  (Failure (layers_add [("$type", DTypeRef "SmdxElement");
                                        ("name", DStr "parcels")]))
                ∈ [BeginProgress; CreateOutputChannel "SHP";
                   OutputsInfo "Импорт shape из {0}"; ProgressIndeterminate true;
                   ProgressDetails "Чтение файла";
                   Await (item_propfind "parcels") Done;
                   Await (item_get "parcels.shp") Done;
                   Await (item_get "parcels.dbf") Done;
                   Await beginEdit Done;
                   Await (shp_parse sample_group) Done;
                   Await (layers_add [("$type", DTypeRef "SmdxElement");
                                      ("name", DStr "parcels")]) Threw;
                   Await endEdit Threw;
                   OutputsError (Failure endEdit);
                   EndProgress]).
  { apply H. do 10 apply list_elem_of_further. apply list_elem_of_here. }
  repeat (apply elem_of_cons in Hin as [Hin|Hin]; [discriminate|]).
  by apply elem_of_nil in Hin.
Qed.

(** * The theorems at concrete inputs *)

Lemma loadShapes_group_skips_unsupported_witness :
  loadShapes_group (fun _ => Some {| geojson_type := "Feature"; features := [] |})
                   "roads" ∅ idle =
    (Ok tt,
     emits [Await (shp_parse ∅) Done; ConsoleError "Unsupported GeoJSON type Feature"]
           idle).
Proof.
  apply (loadShapes_group_skips_unsupported
           (fun _ => Some {| geojson_type := "Feature"; features := [] |})
           "roads" ∅ {| geojson_type := "Feature"; features := [] |} idle).
  - reflexivity.
  - simpl. discriminate.
Defined.

Lemma featureGeometry_lines_witness :
  featureGeometry 7 (LineString [[1%float; 2%float]; [3%float; 4%float]]) idle =
    (Ok tt,
     advance [Await (addLine (placed [1%float; 2%float]) (placed [3%float; 4%float]))
                    (Gave 0);
              Await (setx (HEntity 0) "$layer" (HLayer 7)) Done]
             2 1 idle).
Proof.
  apply (proj1 (featureGeometry_lines 7 idle) [1%float; 2%float] [3%float; 4%float]).
  reflexivity.
Defined.

Lemma featureGeometry_polygons_witness :
  exists evs,
    featureGeometry 7 (Polygon [[[0%float; 0%float]; [1%float; 0%float]; [0%float; 0%float]];
                                [[2%float; 2%float]]]) idle =
      (Ok tt, advance evs 4 2 idle) /\
    length evs = 4.
Proof.
  destruct (proj1 (featureGeometry_polygons 7 idle)
              [[[0%float; 0%float]; [1%float; 0%float]; [0%float; 0%float]];
               [[2%float; 2%float]]] eq_refl) as (evs & Hrun & Hlen & _).
  exists evs. split; [exact Hrun | exact Hlen].
Defined.

Lemma featureGeometry_points_witness :
  featureGeometry 7 (Point [10%float; 20%float]) idle =
    (Ok tt,
     advance [Await (addCircle (scaleCoordinates (coordinatesToVec3 [10%float; 20%float]))
                               0.005%float) (Gave 0);
              Await (setx (HEntity 0) "$layer" (HLayer 7)) Done]
             2 1 idle).
Proof.
  apply (proj1 (featureGeometry_points 7 idle) [10%float; 20%float]).
  reflexivity.
Defined.


(** * What each stage issues *)

Lemma only_bind c {A B} (p : M A) (k : A -> M B) :
  only c p -> (forall a, only c (k a)) -> only c (bind p k).
Proof.
  apply obeys_bind; [|done]. intros _ evs1 _ evs2 H1 H2. by apply Forall_app.
Qed.

Lemma only_for_each c {A} (xs : list A) (body : A -> M unit) :
  (forall x, only c (body x)) -> only c (for_each xs body).
Proof.
  apply obeys_for_each; [by constructor|].
  intros _ evs1 _ evs2 H1 H2. by apply Forall_app.
Qed.

Lemma only_ret c {A} (a : A) : only c (ret a).
Proof. intros st. exists []. simpl. rewrite app_nil_r. by split. Qed.

Lemma only_log c e : c e = true -> only c (log e).
Proof. intros H st. exists [e]. split; [done|]. by repeat constructor. Qed.

Lemma only_create c op :
  c (Await op Threw) = true -> (forall h, c (Await op (Gave h)) = true) ->
  only c (create op).
Proof.
  intros H1 H2 st. unfold create. destruct (throws_next st); simpl; eexists;
    (split; [reflexivity|]); by repeat constructor.
Qed.

Lemma only_command c op :
  c (Await op Threw) = true -> c (Await op Done) = true -> only c (command op).
Proof.
  intros H1 H2 st. unfold command. destruct (throws_next st); simpl; eexists;
    (split; [reflexivity|]); by repeat constructor.
Qed.

Lemma only_answer c {A} op (a : option A) :
  c (Await op Threw) = true -> c (Await op Done) = true -> only c (answer op a).
Proof.
  intros H1 H2 st. unfold answer. destruct a; simpl; eexists;
    (split; [reflexivity|]); by repeat constructor.
Qed.

Lemma only_weaken (c c' : Event -> bool) {A} (p : M A) :
  (forall e, c e = true -> c' e = true) -> only c p -> only c' p.
Proof.
  intros Hc Hp st. destruct (Hp st) as (evs & Ht & Hall).
  exists evs. split; [done|]. eapply Forall_impl; [exact Hall|]. exact Hc.
Qed.

(** Break a program into its calls and check the class of each. *)
Lemma only_groups_get c groups name : only c (groups_get groups name).
Proof. apply obeys_groups_get. intros found. constructor. Qed.

Lemma only_inherited_set c name extension : only c (inherited_set name extension).
Proof. apply obeys_inherited_set. constructor. Qed.

Ltac only_steps :=
  repeat first
    [ assumption
    | apply only_ret
    | apply only_groups_get
    | apply only_inherited_set
    | apply only_log; reflexivity
    | apply only_create; [reflexivity | intros; reflexivity]
    | apply only_command; reflexivity
    | apply only_answer; reflexivity
    | apply only_bind; [|intros]
    | apply only_for_each; intros
    | match goal with
      | |- only _ (if ?b then _ else _) => destruct b
      | |- only _ (match ?x with _ => _ end) => destruct x
      end ].

Lemma only_addToGroups groups item : only io_event (addToGroups groups item).
Proof. unfold addToGroups, console_error. only_steps. Qed.

Lemma only_extractGroups_children items :
  Forall (fun item => forall groups, only io_event (extractGroups_item groups item)) items ->
  forall groups, only io_event (extractGroups groups items).
Proof.
  induction 1 as [|item rest Hitem _ IH]; intros groups; simpl.
  - apply only_ret.
  - apply only_bind; auto.
Qed.

Lemma only_extractGroups_item item :
  forall groups, only io_event (extractGroups_item groups item).
Proof.
  induction item as [m t g pf IH] using WorkspaceItem_tree_ind. intros groups.
  change (extractGroups_item groups (Item m t g pf)) with
    (if String.eqb m "application/vnd.folder" then
       match pf with
       | Some children =>
           log (Await (item_propfind t) Done) ;; extractGroups groups children
       | None => answer (item_propfind t) None
       end
     else if String.eqb m "application/octet-stream" then
       addToGroups groups (Item m t g pf)
     else console_error ("Unsupported MIME type " +:+ m) ;; ret groups).
  destruct (String.eqb m "application/vnd.folder").
  - destruct pf as [cs|]; [|by apply only_answer].
    apply only_bind; [by apply only_log|intros _].
    by apply only_extractGroups_children.
  - destruct (String.eqb m "application/octet-stream").
    + apply only_addToGroups.
    + unfold console_error. only_steps.
Qed.

Lemma only_extractGroups groups items : only io_event (extractGroups groups items).
Proof.
  apply only_extractGroups_children, Forall_forall.
  intros item _. apply only_extractGroups_item.
Qed.

Lemma only_featureGeometry layer rawGeometry :
  only drawing_event (featureGeometry layer rawGeometry).
Proof. destruct rawGeometry; unfold featureGeometry, console_error; only_steps. Qed.

Lemma only_featureProps rawProps : only drawing_event (featureProps rawProps).
Proof.
  intros st. unfold featureProps. rewrite featureProps_loop_run. simpl.
  eexists. split; [reflexivity|].
  apply Forall_forall. intros e He.
  apply list_elem_of_In, in_flat_map in He as ([k prop] & _ & He).
  destruct prop; simpl in He; try done. by destruct He as [<-|[]].
Qed.

Lemma only_loadFeature feature : only drawing_event (loadFeature feature).
Proof.
  unfold loadFeature. apply only_bind; [apply only_featureProps|intros].
  apply only_bind; [only_steps|intros].
  apply only_bind; [only_steps|intros].
  apply only_bind; [apply only_featureGeometry|intros]. apply only_ret.
Qed.

Lemma work_no_failure evs :
  Forall (fun e => work e = true) evs -> no_failure evs.
Proof. intros H. by apply calm_no_failure, work_all_calm. Qed.

(** X3. Group collection talks to the workspace only: every event of
    [extractGroups] is a fetch, a listing or a console diagnostic, never
    a call on the parser, the drawing or its editor.  It stops at the
    first fetch or listing that throws: that call is the last event and
    its failure is the exception raised; a run that returns has none. *)
Theorem extractGroups_workspace_only groups items st :
  exists evs,
    trace (extractGroups groups items st).2 = trace st ++ evs /\
    Forall (fun e => io_event e = true) evs /\
    match (extractGroups groups items st).1 with
    | Ok _ => no_failure evs
    | Throw e =>
        exists evs0 op,
          evs = evs0 ++ [Await op Threw] /\ no_failure evs0 /\ e = Failure op
    end.
Proof.
  destruct (obeys_and _ _ _ (only_extractGroups groups items)
              (clean_extractGroups groups items) st) as (evs & Ht & Hio & Hseg).
  exists evs. split; [done|]. split; [done|].
  destruct (extractGroups groups items st).1 as [g|e]; simpl in Hseg.
  - by apply work_no_failure.
  - destruct Hseg as (evs0 & op & -> & H0 & ->).
    exists evs0, op. split; [done|]. split; [by apply work_no_failure|done].
Qed.

(** * Folders *)

Lemma extractGroups_app a b : forall groups st,
  extractGroups groups (a ++ b) st =
    (let* groups := extractGroups groups a in extractGroups groups b) st.
Proof.
  induction a as [|item a IH]; intros groups st; simpl; [done|].
  unfold bind in *. destruct (extractGroups_item groups item st) as [[g|e] st1]; [|done].
  apply IH.
Qed.

(** X4. A folder whose listing succeeds is transparent: collecting from
    the folder followed by [rest] is collecting from its children
    followed by [rest], once the listing is on the trace.  Files of the
    same base name thus meet in one group whatever folders hold them. *)
Theorem extractGroups_folder_inlined t g children rest groups st :
  extractGroups groups (Item "application/vnd.folder" t g (Some children) :: rest) st =
  extractGroups groups (children ++ rest) (emit (Await (item_propfind t) Done) st).
Proof.
  rewrite extractGroups_app.
  change (extractGroups groups
            (Item "application/vnd.folder" t g (Some children) :: rest) st)
    with ((let* groups :=
             (log (Await (item_propfind t) Done) ;; extractGroups groups children) in
           extractGroups groups rest) st).
  reflexivity.
Qed.

(** X5. An item that is neither a folder nor an opaque binary is never
    fetched nor listed, whatever its accessors would answer: it costs one
    diagnostic and leaves the groups as they were. *)
Theorem extractGroups_skips_other_mime item rest groups st :
  mimeType item <> "application/vnd.folder" ->
  mimeType item <> "application/octet-stream" ->
  extractGroups groups (item :: rest) st =
  extractGroups groups rest
    (emit (ConsoleError ("Unsupported MIME type " +:+ mimeType item)) st).
Proof.
  intros H1 H2. destruct item as [m t g pf]. simpl in H1, H2.
  apply String.eqb_neq in H1, H2.
  change (extractGroups groups (Item m t g pf :: rest) st)
    with ((let* groups := extractGroups_item groups (Item m t g pf) in
           extractGroups groups rest) st).
  change (extractGroups_item groups (Item m t g pf)) with
    (if String.eqb m "application/vnd.folder" then
       match pf with
       | Some children =>
           log (Await (item_propfind t) Done) ;; extractGroups groups children
       | None => answer (item_propfind t) None
       end
     else if String.eqb m "application/octet-stream" then
       addToGroups groups (Item m t g pf)
     else console_error ("Unsupported MIME type " +:+ m) ;; ret groups).
  by rewrite H1, H2.
Qed.

(** * The group record as a whole *)

Lemma obj_get_None_keys {V} (o : list (string * V)) name :
  obj_get o name = None -> name ∉ o.*1.
Proof.
  induction o as [|[k v0] rest IH]; simpl; intros H.
  - apply not_elem_of_nil.
  - destruct (String.eqb k name) eqn:E; [done|].
    apply String.eqb_neq in E. apply not_elem_of_cons. split; [done|by apply IH].
Qed.

Lemma obj_set_keys {V} (o : list (string * V)) name v :
  match obj_get o name with
  | Some _ => (obj_set o name v).*1 = o.*1
  | None => enters name o.*1 (obj_set o name v).*1
  end.
Proof.
  unfold obj_set, enters. destruct (obj_get o name) as [v0|] eqn:E.
  - apply obj_replace_keys.
  - destruct (array_index name) as [n|].
    + destruct (obj_insert_index_split o n name v) as (a & b & -> & -> & Ha & Hb).
      exists a.*1, b.*1. rewrite !fmap_app. repeat split; [done|].
      by destruct b.
    + exists o.*1, []. rewrite fmap_app, app_nil_r. by repeat split.
Qed.

Lemma obj_set_NoDup {V} (o : list (string * V)) name v :
  NoDup o.*1 -> NoDup (obj_set o name v).*1.
Proof.
  intros H. pose proof (obj_set_keys o name v) as Hkeys.
  destruct (obj_get o name) eqn:E.
  - by rewrite Hkeys.
  - destruct Hkeys as (before & after & Ho & -> & _).
    apply obj_get_None_keys in E. rewrite Ho in H, E.
    apply NoDup_app in H as (Hb & Hba & Ha).
    apply not_elem_of_app in E as [Eb Ea].
    apply NoDup_app. split; [done|]. split.
    + intros x Hx Hin. apply elem_of_cons in Hin as [->|Hin]; [done|].
      by apply (Hba x).
    + by apply NoDup_cons.
Qed.

Lemma store_all_NoDup es : forall groups,
  NoDup groups.*1 -> NoDup (store_all groups es).*1.
Proof.
  induction es as [|[t b] rest IH]; intros groups H; simpl; [done|].
  apply IH. unfold store. by apply obj_set_NoDup.
Qed.

(** X1. What group collection returns from an empty record when every
    fetch and listing succeeds and no base name is found on
    [Object.prototype].  No name occurs twice; a name is a key exactly
    when some opaque-binary item has it as base name; every buffer stored
    sits under a recognised extension and is the content of an item whose
    title gives that base name and that extension. *)
Theorem extractGroups_sound items es st :
  entries items = Some es -> not_inherited st es ->
  exists groups,
    (extractGroups [] items st).1 = Ok groups /\
    NoDup groups.*1 /\
    (forall name,
        is_Some (obj_get groups name) <-> exists e, e ∈ es /\ base_name e.1 = name) /\
    (forall name extension bytes,
        buffer_at groups name extension = Some bytes ->
        includes ALLOWED_EXTENSIONS extension = true /\
        exists t, (t, bytes) ∈ es /\ base_name t = name /\ extension_of t = extension).
Proof.
  intros Hes Hown. destruct (extractGroups_run items es [] st Hes Hown) as [evs R].
  exists (store_all [] es). rewrite R. split; [done|].
  split; [apply store_all_NoDup; constructor|]. split.
  - intros name. rewrite present_store_all. simpl. split.
    + intros [[? [=]]|?]; done.
    + by right.
  - intros name extension bytes. rewrite buffer_at_store_all.
    destruct (last_write name extension es) as [b|] eqn:E; [|done].
    intros [= ->]. apply last_write_Some in E as ([t b] & Hin & Hw & Hb).
    simpl in Hb. subst b. unfold writes in Hw. simpl in Hw.
    apply andb_prop in Hw as [Hw Hok]. apply andb_prop in Hw as [Hn He].
    apply String.eqb_eq in Hn, He. split; [done|]. by exists t.
Qed.

(** X2. One call of [addToGroups] on a fetched item of recognised
    extension, whose base name is not found on [Object.prototype], writes
    one slot and nothing else: the item's bytes are found under its base
    name and extension, every other group and every other part of the
    same group is as before, and the names keep their order.  A new name
    that is an array index goes after the indices it is not below and
    before every other name; any other new name goes last. *)
Theorem addToGroups_writes_one_slot groups item bytes st :
  get item = Some bytes ->
  inherits st (base_name (title item)) = false ->
  includes ALLOWED_EXTENSIONS (extension_of (title item)) = true ->
  exists groups',
    (addToGroups groups item st).1 = Ok groups' /\
    buffer_at groups' (base_name (title item)) (extension_of (title item))
      = Some bytes /\
    (forall name extension,
        (name, extension) <> (base_name (title item), extension_of (title item)) ->
        buffer_at groups' name extension = buffer_at groups name extension) /\
    (forall name, name <> base_name (title item) ->
                  obj_get groups' name = obj_get groups name) /\
    match obj_get groups (base_name (title item)) with
    | Some _ => groups'.*1 = groups.*1
    | None => enters (base_name (title item)) groups.*1 groups'.*1
    end.
Proof.
  intros Hget Hown Hok. exists (store groups (title item) bytes).
  rewrite (addToGroups_run _ _ bytes) by done. split; [done|].
  split; [|split; [|split]].
  - rewrite buffer_at_store. unfold writes. simpl.
    by rewrite !String.eqb_refl, Hok.
  - intros name extension Hne. rewrite buffer_at_store.
    destruct (writes name extension (title item, bytes)) eqn:Hw; [|done].
    apply writes_key in Hw. unfold entry_key in Hw. simpl in Hw. congruence.
  - intros name Hne. rewrite obj_get_store.
    destruct (String.eqb (base_name (title item)) name) eqn:E; [|done].
    apply String.eqb_eq in E. congruence.
  - unfold store. apply obj_set_keys.
Qed.

(** * Titles *)

Lemma substring_0_append a b :
  substring 0 (String.length a) (a +:+ b) = a.
Proof.
  induction a as [|c a IH]; simpl.
  - by destruct b.
  - by rewrite IH.
Qed.

Lemma substring_skip_append a b n :
  substring (String.length a) n (a +:+ b) = substring 0 n b.
Proof. induction a as [|c a IH]; simpl; [done|exact IH]. Qed.

Lemma substring_0_all s n :
  String.length s <= n -> substring 0 n s = s.
Proof.
  revert n. induction s as [|c s IH]; intros n H; simpl.
  - by destruct n.
  - destruct n as [|n]; simpl in *; [lia|]. rewrite IH; [done|lia].
Qed.

Lemma length_append a b :
  String.length (a +:+ b) = String.length a + String.length b.
Proof. induction a as [|c a IH]; simpl; [done|by rewrite IH]. Qed.

(** X6. How a title is cut.  With an extension of three characters the
    title [name ++ c ++ extension] gives back [name] and [extension]
    whatever the character [c] between them: it is dropped unchecked, a
    dot or not.  A title of at most three characters has the empty base
    name and is its own extension. *)
Theorem title_cut :
  (forall name c extension,
      String.length extension = 3 ->
      base_name (name +:+ String c extension) = name /\
      extension_of (name +:+ String c extension) = extension)
  /\
  (forall title,
      String.length title <= 3 ->
      base_name title = "" /\ extension_of title = title).
Proof.
  split.
  - intros name c extension Hlen. unfold base_name, extension_of.
    rewrite length_append. simpl. rewrite Hlen.
    replace (String.length name + 4 - 4) with (String.length name) by lia.
    replace (String.length name + 4 - 3) with (String.length (name +:+ String c ""))
      by (rewrite length_append; simpl; lia).
    split; [apply substring_0_append|].
    replace (name +:+ String c extension) with ((name +:+ String c "") +:+ extension).
    + rewrite substring_skip_append. apply substring_0_all. lia.
    + clear. induction name as [|d name IH]; [reflexivity|].
      change (String d ((name +:+ String c "") +:+ extension)
              = String d (name +:+ String c extension)).
      f_equal. exact IH.
  - intros title Hlen. unfold base_name, extension_of.
    replace (String.length title - 4) with 0 by lia.
    replace (String.length title - 3) with 0 by lia.
    split; [by destruct title|]. by apply substring_0_all.
Qed.

(** * Coordinates *)

(** X7. Whatever the number of components of a coordinate tuple, what
    reaches the host has exactly three: the first three of a tuple of
    three or more (a fourth, such as a measure, is dropped), the two of a
    pair followed by zero; scaling keeps the number of components. *)
Theorem coordinates_have_three_components :
  (forall coordinates, length (coordinatesToVec3 coordinates) = 3) /\
  (forall coordinates, length (scaleCoordinates coordinates) = length coordinates) /\
  (forall coordinates, length (scaleCoordinates (coordinatesToVec3 coordinates)) = 3) /\
  (forall x y z rest, coordinatesToVec3 (x :: y :: z :: rest) = [x; y; z]) /\
  (forall x y, coordinatesToVec3 [x; y] = [x; y; 0%float]).
Proof.
  assert (H3 : forall coordinates, length (coordinatesToVec3 coordinates) = 3).
  { intros c. unfold coordinatesToVec3. by destruct (3 <=? length c). }
  assert (Hs : forall coordinates,
             length (scaleCoordinates coordinates) = length coordinates).
  { intros c. unfold scaleCoordinates. apply length_map. }
  repeat split; auto.
  intros c. by rewrite Hs, H3.
Qed.

(** * Geometry Mapper: features and collections on a host that does not fail *)



Lemma tagged_all_fmap layer {A} (f : A -> Op) (xs : list A) h :
  tagged_all layer (f <$> xs) h = tagged_all layer (map f xs) h.
Proof. reflexivity. Qed.





Section Collections.

Variable shp : ShapeGroup -> option GeoJSON.


End Collections.


(** * The parser and the edit session *)



Lemma drawing_mapper e : drawing_event e = true -> mapper_event e = true.
Proof.
  destruct e as [op res| | | | | | | | |]; try done. by destruct op.
Qed.

Section Parser.

Variable shp : ShapeGroup -> option GeoJSON.

Lemma only_collection name (geojson : GeoJSON) :
  only drawing_event
    (if String.eqb (geojson_type geojson) "FeatureCollection" then
       let* parent := create (layers_add [("$type", SmdxElement); ("name", DStr name)]) in
       log (SetDisabled parent true) ;;
       for_each (features geojson) (fun feature =>
         if String.eqb (feature_type feature) "Feature" then
           let* layer := loadFeature feature in
           command (setx (HLayer layer) "$layer" (HLayer parent))
         else
           console_error ("Unsupported feature type " +:+ feature_type feature))
     else
       console_error ("Unsupported GeoJSON type " +:+ geojson_type geojson)).
Proof.
  unfold console_error. pose proof only_loadFeature as Hfeature.
  destruct (String.eqb (geojson_type geojson) "FeatureCollection").
  - apply only_bind; [only_steps|intros parent].
    apply only_bind; [only_steps|intros _].
    apply only_for_each. intros feature.
    destruct (String.eqb (feature_type feature) "Feature"); [|only_steps].
    apply only_bind; [apply Hfeature|intros]. only_steps.
  - only_steps.
Qed.

Lemma loadShapes_group_parses name group st :
  exists res rest,
    trace (loadShapes_group shp name group st).2 =
      trace st ++ Await (shp_parse group) res :: rest /\
    Forall (fun e => drawing_event e = true) rest.
Proof.
  unfold loadShapes_group. unfold bind at 1. unfold answer.
  destruct (shp group) as [geojson|].
  - destruct (only_collection name geojson (emit (Await (shp_parse group) Done) st))
      as (rest & Ht & Hrest).
    exists Done, rest. split; [|done]. rewrite Ht. simpl. by rewrite <- app_assoc.
  - by exists Threw, [].
Qed.

Lemma only_loadShapes groups : only mapper_event (loadShapes shp groups).
Proof.
  unfold loadShapes. apply only_for_each. intros [name group] st.
  destruct (loadShapes_group_parses name group st) as (res & rest & Ht & Hrest).
  eexists. split; [exact Ht|]. constructor; [done|].
  eapply Forall_impl; [exact Hrest|]. apply drawing_mapper.
Qed.

(** X14. The Geometry Mapper issues parser calls and drawing events
    only, and a failure is not confined to its group: [loadShapes] stops
    at the first parser or host call that throws, that call being its
    last event and its failure the exception raised, so that no later
    feature or group is processed; a run that returns has no failure. *)
Theorem loadShapes_stops_at_first_failure groups st :
  exists evs,
    trace (loadShapes shp groups st).2 = trace st ++ evs /\
    Forall (fun e => mapper_event e = true) evs /\
    match (loadShapes shp groups st).1 with
    | Ok _ => no_failure evs
    | Throw e =>
        exists evs0 op,
          evs = evs0 ++ [Await op Threw] /\ no_failure evs0 /\ e = Failure op
    end.
Proof.
  destruct (obeys_and _ _ _ (only_loadShapes groups)
              (clean_loadShapes shp groups) st) as (evs & Ht & Hclass & Hseg).
  exists evs. split; [done|]. split; [done|].
  destruct (loadShapes shp groups st).1 as [u|e]; simpl in Hseg.
  - by apply work_no_failure.
  - destruct Hseg as (evs0 & op & -> & H0 & ->).
    exists evs0, op. split; [done|]. split; [by apply work_no_failure|done].
Qed.


Variable tr : string -> list string -> string.

(** X12. Without a model layout [import] does nothing: no listing, no
    fetch, no parser or host call and no error report, whatever the
    workspace holds; it announces the import and ends the progress. *)
Theorem import_without_layout workspace drawing st :
  layouts drawing ≫= model = None ->
  import shp tr workspace drawing st =
    (Ok tt,
     emits [BeginProgress; CreateOutputChannel "SHP";
            OutputsInfo (tr "Импорт shape из {0}"
                            [default (title (root workspace)) (origin workspace)]);
            ProgressIndeterminate true;
            EndProgress] st).
Proof.
  intros H. unfold import, try_finally, try_catch, bind, log, emit. cbn beta iota.
  rewrite H. unfold ret. by rewrite !emits_emits.
Qed.

Lemma io_not_host evs :
  Forall (fun e => io_event e = true) evs -> Forall (fun e => host_event e = false) evs.
Proof.
  intros H. eapply Forall_impl; [exact H|]. intros e He.
  destruct e as [op res| | | | | | | | |]; try done. by destruct op.
Qed.

Lemma session_body groups st :
  exists body res,
    trace (try_finally (loadShapes shp groups) (command endEdit) st).2
      = trace st ++ body ++ [Await endEdit res] /\
    Forall (fun e => mapper_event e = true) body.
Proof.
  destruct (only_loadShapes groups st) as (body & Ht & Hbody).
  unfold try_finally, command.
  destruct (loadShapes shp groups st) as [r st1]. simpl in Ht.
  destruct (throws_next st1); simpl; exists body;
    [exists Threw | exists Done]; (split; [|done]);
    simpl; by rewrite Ht, <- app_assoc.
Qed.

(** X13. [import] touches the drawing inside the edit session only.  Its
    run is a part without any call on the drawing or its editor, then
    nothing, or a [beginEdit] that threw, or [beginEdit] returning,
    parser calls and drawing events, and [endEdit]; then a part without
    any such call again.  [endEdit] is thus called only after [beginEdit]
    returned, and a listing or fetch that fails leaves the drawing and
    its editor untouched. *)
Theorem import_mutates_inside_session workspace drawing st :
  exists pre session post,
    trace (import shp tr workspace drawing st).2 = trace st ++ pre ++ session ++ post /\
    Forall (fun e => host_event e = false) pre /\
    Forall (fun e => host_event e = false) post /\
    (session = [] \/
     session = [Await beginEdit Threw] \/
     exists body res,
       session = Await beginEdit Done :: body ++ [Await endEdit res] /\
       Forall (fun e => mapper_event e = true) body).
Proof.
  unfold import, try_finally, try_catch, bind, log, emit. cbn beta iota.
  rewrite !emits_emits. cbn [app].
  destruct (layouts drawing ≫= model) as [layout|]; cycle 1.
  { unfold ret. eexists [_; _; _; _], [], [EndProgress].
    split; [|split; [|split]].
    - simpl. by rewrite <- !app_assoc.
    - by repeat constructor.
    - by repeat constructor.
    - by left. }
  rewrite !emits_emits. cbn [app]. unfold answer.
  destruct (propfind (root workspace)) as [items|]; cycle 1.
  { eexists [_; _; _; _; _; _], [], [_; EndProgress].
    split; [|split; [|split]].
    - simpl. by rewrite <- !app_assoc.
    - by repeat constructor.
    - by repeat constructor.
    - by left. }
  unfold emit. rewrite !emits_emits. cbn [app].
  match goal with
  | |- context [extractGroups [] items ?s] =>
      destruct (only_extractGroups [] items s) as (io & Hio & Hclass);
      destruct (extractGroups [] items s) as [[groups|e] st1]
  end; simpl in Hio; apply io_not_host in Hclass; cycle 1.
  { eexists ([_; _; _; _; _; _] ++ io), [], [_; EndProgress].
    split; [|split; [|split]].
    - simpl. rewrite Hio. by rewrite <- !app_assoc.
    - apply Forall_app. split; [by repeat constructor | done].
    - by repeat constructor.
    - by left. }
  unfold command at 1. destruct (throws_next st1) eqn:Hbegin.
  { eexists ([_; _; _; _; _; _] ++ io), [Await beginEdit Threw], [_; EndProgress].
    split; [|split; [|split]].
    - simpl. rewrite Hio. by rewrite <- !app_assoc.
    - apply Forall_app. split; [by repeat constructor | done].
    - by repeat constructor.
    - right. by left. }
  destruct (session_body groups (returned beginEdit Done st1))
    as (body & res & Ht & Hbody).
  fold (try_finally (loadShapes shp groups) (command endEdit)
          (returned beginEdit Done st1)).
  destruct (try_finally (loadShapes shp groups) (command endEdit) _) as [r st2].
  simpl in Ht.
  exists ([BeginProgress; CreateOutputChannel "SHP";
           OutputsInfo (tr "Импорт shape из {0}"
                           [default (title (root workspace)) (origin workspace)]);
           ProgressIndeterminate true; ProgressDetails (tr "Чтение файла" []);
           Await (item_propfind (title (root workspace))) Done] ++ io),
    (Await beginEdit Done :: body ++ [Await endEdit res]),
    (report r ++ [EndProgress]).
  split; [|split; [|split]].
  - destruct r as [[]|e]; simpl; rewrite Ht; simpl; rewrite Hio;
      simpl; rewrite <- !app_assoc; simpl; by rewrite <- ?app_assoc.
  - apply Forall_app. split; [by repeat constructor | done].
  - destruct r; by repeat constructor.
  - right. right. by exists body, res.
Qed.

End Parser.

(** * The further theorems at concrete inputs *)

Lemma extractGroups_sound_witness :
  exists groups,
    (extractGroups [] [sample_shp; sample_dbf] idle).1 = Ok groups /\
    NoDup groups.*1.
Proof.
  assert (Hown : not_inherited idle
                   [("roads.shp", [Byte.x01]); ("roads.dbf", [Byte.x02])])
    by repeat constructor.
  destruct (extractGroups_sound [sample_shp; sample_dbf]
              [("roads.shp", [Byte.x01]); ("roads.dbf", [Byte.x02])] idle eq_refl Hown)
    as (groups & Hrun & Hnd & _).
  exists groups. split; [exact Hrun | exact Hnd].
Defined.

Lemma addToGroups_writes_one_slot_witness :
  exists groups',
    (addToGroups [("b", ∅)] sample_year idle).1 = Ok groups' /\
    buffer_at groups' "2020" "shp" = Some [Byte.x01] /\
    enters "2020" ["b"] groups'.*1.
Proof.
  destruct (addToGroups_writes_one_slot [("b", ∅)] sample_year [Byte.x01] idle
              eq_refl eq_refl eq_refl)
    as (groups' & Hrun & Hslot & _ & _ & Hkeys).
  exists groups'. split; [exact Hrun|]. split; [exact Hslot | exact Hkeys].
Defined.

Lemma extractGroups_skips_other_mime_witness :
  extractGroups [] [sample_text; sample_shp] idle =
  extractGroups [] [sample_shp]
    (emit (ConsoleError "Unsupported MIME type text/plain") idle).
Proof.
  apply (extractGroups_skips_other_mime sample_text [sample_shp] [] idle).
  - simpl. discriminate.
  - simpl. discriminate.
Defined.

Lemma title_cut_witness :
  base_name "roads_shp" = "roads" /\ extension_of "roads_shp" = "shp".
Proof.
  apply (proj1 title_cut "roads" "_"%char "shp"). reflexivity.
Defined.





Lemma import_without_layout_witness :
  import sample_parser sample_tr sample_workspace sample_drawing_bare idle =
    (Ok tt,
     emits [BeginProgress; CreateOutputChannel "SHP";
            OutputsInfo "Импорт shape из {0}"; ProgressIndeterminate true;
            EndProgress] idle).
Proof.
  apply (import_without_layout sample_parser sample_tr sample_workspace
           sample_drawing_bare idle).
  reflexivity.
Defined.
